(** * Capynaut: the shortcut registry of [src/index.ts]

    A shallow embedding of the [Capynaut] class: the key-spec parser
    [#parseKeys], the registry operations [bind], [unbind], [rebind],
    [enable], [disable], [debug], [destroy], [docs], and the event handler
    [#handleKeydown], followed by the properties of the specification.

    Strings are sequences of code units below 256 (the Latin-1 range of a
    JavaScript string); on that alphabet [toLowerCase], [trim], [split],
    [includes], [join] and the default [sort] order below are the ones of
    the language. *)

From Stdlib Require Import List Bool Arith Lia String Ascii NArith.
From Stdlib Require Import Permutation Sorted.
From Stdlib Require OrderedTypeEx.
Import ListNotations.

Open Scope string_scope.
Open Scope list_scope.

(* ================================================================= *)
(** ** String primitives of the host language *)

Module JS.

(** [String.prototype.toLowerCase] on one code unit: A-Z, and the Latin-1
    capitals U+00C0..U+00DE except the multiplication sign U+00D7. *)
Definition lower_ascii (c : ascii) : ascii :=
  let n := nat_of_ascii c in
  if (((65 <=? n) && (n <=? 90))
      || ((192 <=? n) && (n <=? 222) && negb (n =? 215)))%nat
  then ascii_of_nat (n + 32)
  else c.

Fixpoint toLowerCase (s : string) : string :=
  match s with
  | EmptyString => EmptyString
  | String c r => String (lower_ascii c) (toLowerCase r)
  end.

(** White space and line terminators stripped by [trim]: TAB, LF, VT, FF,
    CR, SP and NBSP. *)
Definition is_white (c : ascii) : bool :=
  let n := nat_of_ascii c in
  (((9 <=? n) && (n <=? 13)) || (n =? 32) || (n =? 160))%nat.

Definition is_empty (s : string) : bool :=
  match s with EmptyString => true | String _ _ => false end.

Fixpoint trimStart (s : string) : string :=
  match s with
  | EmptyString => EmptyString
  | String c r => if is_white c then trimStart r else s
  end.

Fixpoint trimEnd (s : string) : string :=
  match s with
  | EmptyString => EmptyString
  | String c r =>
      let r' := trimEnd r in
      if is_white c && is_empty r' then EmptyString else String c r'
  end.

Definition trim (s : string) : string := trimEnd (trimStart s).

(** [s.split(sep)] for a one-character separator: never the empty list. *)
Fixpoint split (sep : ascii) (s : string) : list string :=
  match s with
  | EmptyString => [EmptyString]
  | String c r =>
      if Ascii.eqb c sep then EmptyString :: split sep r
      else match split sep r with
           | h :: t => String c h :: t
           | [] => [String c EmptyString]
           end
  end.

(** [s.includes(c)] for a one-character needle. *)
Fixpoint includes (c : ascii) (s : string) : bool :=
  match s with
  | EmptyString => false
  | String d r => Ascii.eqb d c || includes c r
  end.

(** [arr.join(sep)] on an array of strings. *)
Fixpoint join (sep : string) (l : list string) : string :=
  match l with
  | [] => EmptyString
  | [x] => x
  | x :: r => (x ++ sep ++ join sep r)%string
  end.

(** Insertion into a list sorted by code units; an element goes after the
    ones that compare equal, so the sort is stable as [Array.prototype.sort]
    is. *)
Fixpoint insert_sorted {A} (key : A -> string) (x : A) (l : list A) : list A :=
  match l with
  | [] => [x]
  | y :: r => if String.ltb (key x) (key y) then x :: l
              else y :: insert_sorted key x r
  end.

(** [arr.sort()] with the default comparator: the elements are ordered by
    the code units of their string conversions. *)
Definition sort {A} (key : A -> string) (l : list A) : list A :=
  fold_left (fun acc x => insert_sorted key x acc) l [].

End JS.

(* ================================================================= *)
(** ** Data model *)

(** What an array of keys can hold. Parsing resolves a part through
    [KEY_ALIAS[part] || part]; [KEY_ALIAS] is a plain object literal, so a
    part that names a member of [Object.prototype] resolves to that member
    (a function, or the prototype object for [__proto__]) and not to a
    string. *)
Inductive token : Type :=
| Str (s : string)
| Inherited (name : string).

(** The names a plain object inherits from [Object.prototype]. *)
Definition object_prototype_names : list string :=
  [ "constructor"; "__proto__"; "hasOwnProperty"; "isPrototypeOf";
    "propertyIsEnumerable"; "toLocaleString"; "toString"; "valueOf";
    "__defineGetter__"; "__defineSetter__"; "__lookupGetter__";
    "__lookupSetter__" ].

Definition is_inherited (k : string) : bool :=
  existsb (String.eqb k) object_prototype_names.

(** The own entries of the static [#KEY_ALIAS] table. *)
Definition KEY_ALIAS_own : list (string * string) :=
  [ ("esc", "escape");
    ("del", "delete");
    ("space", " ");
    ("control", "ctrl");
    ("alt", "alt");
    ("shift", "shift");
    ("meta", "meta") ].

Fixpoint assoc (k : string) (l : list (string * string)) : option string :=
  match l with
  | [] => None
  | (k', v) :: r => if String.eqb k k' then Some v else assoc k r
  end.

(** [Capynaut.#KEY_ALIAS[k]]: an own entry, else an inherited member, else
    [undefined]. *)
Definition KEY_ALIAS (k : string) : option token :=
  match assoc k KEY_ALIAS_own with
  | Some v => Some (Str v)
  | None => if is_inherited k then Some (Inherited k) else None
  end.

(** Truthiness of a value of the table: every object is truthy, a string
    is truthy when it is not empty. *)
Definition truthy (t : token) : bool :=
  match t with
  | Str s => negb (JS.is_empty s)
  | Inherited _ => true
  end.

(** [Capynaut.#KEY_ALIAS[k] || k]. *)
Definition alias_or (k : string) : token :=
  match KEY_ALIAS k with
  | Some v => if truthy v then v else Str k
  | None => Str k
  end.

(** String conversion of an element, as [join] and the default [sort]
    perform it. For a built-in function the text is the one V8 prints. *)
Definition ToString (t : token) : string :=
  match t with
  | Str s => s
  | Inherited name =>
      if String.eqb name "__proto__" then "[object Object]"
      else ("function "
            ++ (if String.eqb name "constructor" then "Object" else name)
            ++ "() { [native code] }")%string
  end.

(** [keys.join(sep)] on an array of tokens. *)
Definition join_keys (sep : string) (keys : list token) : string :=
  JS.join sep (map ToString keys).

(** The exceptions of the class, one constructor per throw site; all are
    [TypeError]s. [NotAFunction] is the one the engine raises when a method
    is called on a value that does not have it. *)
Inductive exn : Type :=
| EmptyKeys        (* 'keys' must be a string and cannot be empty *)
| InvalidFormat    (* 'keys' is not defined correctly *)
| NotAFunction.    (* key.trim is not a function *)

Inductive result (A : Type) : Type :=
| Ok (a : A)
| Throw (e : exn).
Arguments Ok {A} a.
Arguments Throw {A} e.

Definition bind_result {A B} (r : result A) (k : A -> result B) : result B :=
  match r with
  | Ok a => k a
  | Throw e => Throw e
  end.

Notation "x <- r ;; k" := (bind_result r (fun x => k))
  (at level 61, r at next level, right associativity).

(* ================================================================= *)
(** ** [#parseKeys] *)

Definition pipe : ascii := "|"%char.
Definition plus : ascii := "+"%char.

(** [keys.toLowerCase().split("+").map(key => key.trim())]. *)
Definition keyParts (keys : string) : list string :=
  map JS.trim (JS.split plus (JS.toLowerCase keys)).

(** One round of the first [forEach]: the accumulator is
    [(keysBase, keysSplit)]. *)
Definition collect_part (acc : list token * list token) (part : string)
  : list token * list token :=
  let '(keysBase, keysSplit) := acc in
  if JS.includes pipe part
  then (keysBase, keysSplit ++ map alias_or (JS.split pipe part))
  else (keysBase ++ [alias_or part], keysSplit).

Definition collect (parts : list string) : list token * list token :=
  fold_left collect_part parts ([], []).

(** One round of the second [forEach]: [key.trim()] throws on a value
    that is not a string. *)
Definition merge_key (keysBase : list token)
    (acc : result (list (list token))) (key : token)
  : result (list (list token)) :=
  keysMerged <- acc ;;
  match key with
  | Str s => if JS.is_empty (JS.trim s) then Ok keysMerged
             else Ok (keysMerged ++ [keysBase ++ [key]])
  | Inherited _ => Throw NotAFunction
  end.

Definition parseKeys (keys : string) : result (list (list token)) :=
  let '(keysBase, keysSplit) := collect (keyParts keys) in
  if negb (List.length keysSplit =? 0)%nat then
    keysMerged <- fold_left (merge_key keysBase) keysSplit (Ok []) ;;
    if (List.length keysMerged =? 0)%nat then Throw InvalidFormat
    else Ok keysMerged
  else Ok [keysBase].

(* ================================================================= *)
(** ** Bindings, events and the registry *)

(** A callback is a function object of the caller; the registry only
    stores it and calls it, so it is modelled by its identity. *)
Definition fn : Type := nat.

(** The type [keyBinding]. *)
Record keyBinding : Type := mkBinding {
  keys : list token;
  callback : fn;
  description : string;
  enabled : bool
}.

Definition set_enabled (b : keyBinding) (e : bool) : keyBinding :=
  mkBinding (keys b) (callback b) (description b) e.

Record modifiers : Type := mkMods {
  ctrlKey : bool;
  altKey : bool;
  shiftKey : bool;
  metaKey : bool
}.

(** The classes of event objects the handler tells apart with
    [instanceof]. *)
Inductive event : Type :=
| KeyboardEvent (m : modifiers) (key : string)
| MouseEvent (m : modifiers)
| OtherEvent.

(** What the registry does to the outside: console output, and the two
    calls it makes on an event and on a callback. *)
Inductive effect : Type :=
| Warn (msg : string)
| Log (msg : string)
| PreventDefault (ev : event)
| Invoke (f : fn) (ev : event).

(** The private fields: [#bindings], [#debug], and whether the bound
    handler is attached to [#element] for "keydown" and for "click". *)
Record registry : Type := mkRegistry {
  bindings : list keyBinding;
  debug_flag : bool;
  keydown_listener : bool;
  click_listener : bool
}.

Definition set_bindings (st : registry) (bs : list keyBinding) : registry :=
  mkRegistry bs (debug_flag st) (keydown_listener st) (click_listener st).

(** The constructor, on a valid element. *)
Definition new_registry : registry := mkRegistry [] false true true.

(** [binding.keys.join("+")]. *)
Definition keysJoin (ks : list token) : string := join_keys "+" ks.

Definition has_join (j : string) (b : keyBinding) : bool :=
  String.eqb (keysJoin (keys b)) j.

Definition quoted (j : string) (tail : string) : string :=
  ("Shortcut '" ++ j ++ "'" ++ tail)%string.

Definition acc : Type := (list keyBinding * list effect)%type.

(** The guard shared by the public methods:
    [typeof keys !== "string" || !keys.trim()]. *)
Definition invalid_keys (ks : string) : bool := JS.is_empty (JS.trim ks).

(** The arguments of the public methods have their declared types, so the
    [typeof] guards hold; what is left of them is the test on [keys]. *)

(* ----------------------------------------------------------------- *)
(** *** [bind] *)

Definition bind_one (cb : fn) (d : string) (e : bool) (a : acc)
    (ks : list token) : acc :=
  let '(bs, out) := a in
  let j := keysJoin ks in
  if negb (existsb (has_join j) bs)
  then (bs ++ [mkBinding ks cb d e], out)
  else (bs, out ++ [Warn (quoted j " is already registered")]).

Definition bind (ks : string) (cb : fn) (d : string) (e : bool)
    (st : registry) : result (registry * list effect) :=
  if invalid_keys ks then Throw EmptyKeys else
  parsedKeys <- parseKeys ks ;;
  let '(bs, out) := fold_left (bind_one cb d e) parsedKeys (bindings st, []) in
  Ok (set_bindings st bs, out).

(* ----------------------------------------------------------------- *)
(** *** [unbind] *)

Definition unbind_one (a : acc) (ks : list token) : acc :=
  let '(bs, out) := a in
  let j := keysJoin ks in
  let bs' := filter (fun b => negb (has_join j b)) bs in
  if (List.length bs' =? List.length bs)%nat
  then (bs', out ++ [Warn (quoted j " is not registered")])
  else (bs', out).

Definition unbind (ks : string) (st : registry)
  : result (registry * list effect) :=
  if invalid_keys ks then Throw EmptyKeys else
  parsedKeys <- parseKeys ks ;;
  let '(bs, out) := fold_left unbind_one parsedKeys (bindings st, []) in
  Ok (set_bindings st bs, out).

(* ----------------------------------------------------------------- *)
(** *** [rebind] *)

Definition rebind_one (cb : fn) (d : string) (e : bool) (a : acc)
    (ks : list token) : acc :=
  let '(bs, out) := a in
  let j := keysJoin ks in
  let bs' := filter (fun b => negb (has_join j b)) bs in
  if (List.length bs' <? List.length bs)%nat
  then (bs' ++ [mkBinding ks cb d e], out)
  else (bs', out ++ [Warn (quoted j " is not registered")]).

Definition rebind (ks : string) (cb : fn) (d : string) (e : bool)
    (st : registry) : result (registry * list effect) :=
  if invalid_keys ks then Throw EmptyKeys else
  parsedKeys <- parseKeys ks ;;
  let '(bs, out) := fold_left (rebind_one cb d e) parsedKeys (bindings st, []) in
  Ok (set_bindings st bs, out).

(* ----------------------------------------------------------------- *)
(** *** [#toggle], [enable], [disable] *)

Definition toggle_one (e : bool) (a : acc) (ks : list token) : acc :=
  let '(bs, out) := a in
  let j := keysJoin ks in
  let bs' := map (fun b => if has_join j b then set_enabled b e else b) bs in
  let found := existsb (has_join j) bs in
  if negb found
  then (bs', out ++ [Warn (quoted j (" is not registered and cannot be "
                                      ++ (if e then "enabled" else "disabled")))])
  else (bs', out).

Definition toggle (ks : string) (e : bool) (st : registry)
  : result (registry * list effect) :=
  parsedKeys <- parseKeys ks ;;
  let '(bs, out) := fold_left (toggle_one e) parsedKeys (bindings st, []) in
  Ok (set_bindings st bs, out).

Definition enable (ks : string) (st : registry)
  : result (registry * list effect) :=
  if invalid_keys ks then Throw EmptyKeys else toggle ks true st.

Definition disable (ks : string) (st : registry)
  : result (registry * list effect) :=
  if invalid_keys ks then Throw EmptyKeys else toggle ks false st.

(* ----------------------------------------------------------------- *)
(** *** [debug], [destroy], [docs] *)

Definition debug (e : bool) (st : registry) : registry :=
  mkRegistry (bindings st) e (keydown_listener st) (click_listener st).

(** [removeEventListener] for both event types, then [#bindings = []]. *)
Definition destroy (st : registry) : registry :=
  mkRegistry [] (debug_flag st) false false.

Inductive doc_keys : Type :=
| Readable (s : string)
| Raw (ks : list token).

Definition docs (readable : bool) (st : registry)
  : list (doc_keys * string) :=
  map (fun b => (if readable then Readable (join_keys " + " (keys b))
                 else Raw (keys b),
                 description b))
      (bindings st).

(* ================================================================= *)
(** ** [#handleKeydown] *)

(** The tokens pushed for the modifier flags, in the order of the four
    [if] statements. *)
Definition modifier_tokens (m : modifiers) : list string :=
  (if ctrlKey m then ["ctrl"] else [])
  ++ (if altKey m then ["alt"] else [])
  ++ (if shiftKey m then ["shift"] else [])
  ++ (if metaKey m then ["meta"] else []).

(** [!Capynaut.#KEY_ALIAS[keyPressed]]. *)
Definition not_in_alias_table (keyPressed : string) : bool :=
  match KEY_ALIAS keyPressed with
  | Some v => negb (truthy v)
  | None => true
  end.

(** The array [pressed]; [None] is the early [return] for an event that
    is neither a [KeyboardEvent] nor a [MouseEvent]. *)
Definition pressed_of (ev : event) : option (list string) :=
  match ev with
  | KeyboardEvent m key =>
      let keyPressed := JS.toLowerCase key in
      Some (modifier_tokens m
            ++ (if not_in_alias_table keyPressed then [keyPressed] else []))
  | MouseEvent m => Some (modifier_tokens m ++ ["click"])
  | OtherEvent => None
  end.

(** [[...binding.keys].sort().join("+")]. *)
Definition sortedBinding (b : keyBinding) : string :=
  join_keys "+" (JS.sort ToString (keys b)).

(** [[...pressed].sort().join("+")]. *)
Definition sortedPressed (pressed : list string) : string :=
  JS.join "+" (JS.sort (fun s => s) pressed).

(** The condition of the [if] in the loop. *)
Definition fires (pressed : list string) (b : keyBinding) : bool :=
  String.eqb (sortedBinding b) (sortedPressed pressed) && enabled b.

Definition debug_log (st : registry) (pressed : list string) : list effect :=
  if debug_flag st then [Log (JS.join " + " pressed)] else [].

Section Handler.

(** The code of the callbacks: called with the event, a callback can use
    the public methods of the registry it was bound in, so it takes the
    registry to a new state; the flag tells whether it returned (rather
    than threw). *)
Variable run : fn -> event -> registry -> registry * bool.

(** The loop stops at the first binding that fires, so it is a [find];
    the debug output is written after the callback has returned, from the
    [#debug] it left. *)
Definition handleKeydown (ev : event) (st : registry)
  : registry * list effect :=
  match pressed_of ev with
  | None => (st, [])
  | Some pressed =>
      match find (fires pressed) (bindings st) with
      | Some b =>
          let '(st', returned) := run (callback b) ev st in
          (st', PreventDefault ev :: Invoke (callback b) ev
                :: (if returned then debug_log st' pressed else []))
      | None => (st, debug_log st pressed)
      end
  end.

(** Dispatching an event of type [ty] on the element: the handler runs
    when it is attached for that type. *)
Definition dispatch (ty : string) (ev : event) (st : registry)
  : registry * list effect :=
  if (String.eqb ty "keydown" && keydown_listener st)
     || (String.eqb ty "click" && click_listener st)
  then handleKeydown ev st
  else (st, []).

End Handler.

(** Callbacks that leave the registry alone. *)
Definition inert : fn -> event -> registry -> registry * bool :=
  fun _ _ st => (st, true).

(* ================================================================= *)
(** ** Sequences of public operations *)

Inductive op : Type :=
| OpBind (ks : string) (cb : fn) (d : string) (e : bool)
| OpUnbind (ks : string)
| OpRebind (ks : string) (cb : fn) (d : string) (e : bool)
| OpEnable (ks : string)
| OpDisable (ks : string)
| OpDebug (e : bool)
| OpDestroy
| OpDocs (readable : bool).

Definition apply_op (o : op) (st : registry)
  : result (registry * list effect) :=
  match o with
  | OpBind ks cb d e => bind ks cb d e st
  | OpUnbind ks => unbind ks st
  | OpRebind ks cb d e => rebind ks cb d e st
  | OpEnable ks => enable ks st
  | OpDisable ks => disable ks st
  | OpDebug e => Ok (debug e st, [])
  | OpDestroy => Ok (destroy st, [])
  | OpDocs _ => Ok (st, [])
  end.

(** The state after a call; a call that throws has not touched the
    registry. *)
Definition after (o : op) (st : registry) : registry :=
  match apply_op o st with
  | Ok (st', _) => st'
  | Throw _ => st
  end.

Definition run_ops (ops : list op) (st : registry) : registry :=
  fold_left (fun s o => after o s) ops st.

(** The registry states the public methods can produce from a fresh
    instance. The key arrays that [docs(false)] hands out are the
    registry's own; writing into them is not an operation of the class and
    is not among these. *)
Definition reachable (st : registry) : Prop :=
  exists ops, run_ops ops new_registry = st.

Definition no_mods : modifiers := mkMods false false false false.
Definition ctrl_only : modifiers := mkMods true false false false.

Definition invoked (out : list effect) : list fn :=
  flat_map (fun x => match x with Invoke f _ => [f] | _ => [] end) out.

(* ================================================================= *)
(** ** Vocabulary of the statements *)

(** The join strings of the registered bindings, in registration order. *)
Definition joins (bs : list keyBinding) : list string :=
  map (fun b => keysJoin (keys b)) bs.

(** The parts of a spec that hold a [|], and the others. *)
Definition is_group (part : string) : bool := JS.includes pipe part.

Definition fixed_prefix (parts : list string) : list token :=
  map alias_or (filter (fun p => negb (is_group p)) parts).

Definition alternatives_of (part : string) : list token :=
  map alias_or (JS.split pipe part).

Definition all_alternatives (parts : list string) : list token :=
  flat_map alternatives_of (filter is_group parts).

(** An alternative that [key.trim()] keeps. *)
Definition non_blank (t : token) : bool :=
  match t with
  | Str s => negb (JS.is_empty (JS.trim s))
  | Inherited _ => true
  end.

Definition is_string (t : token) : bool :=
  match t with Str _ => true | Inherited _ => false end.

(** One key-sequence per alternative kept: the prefix, then the
    alternative. *)
Definition expansions (base alts : list token) : list (list token) :=
  map (fun k => base ++ [k]) (filter non_blank alts).

(** The bindings left when those with join [j] are removed. *)
Definition without (j : string) (bs : list keyBinding) : list keyBinding :=
  filter (fun b => negb (has_join j b)) bs.

(** The warnings of [bind] and of [unbind] and [rebind]. *)
Definition warn_registered (ks : list token) : effect :=
  Warn (quoted (keysJoin ks) " is already registered").

Definition warn_not_registered (ks : list token) : effect :=
  Warn (quoted (keysJoin ks) " is not registered").

(** The warning of [#toggle]. *)
Definition warn_cannot (e : bool) (ks : list token) : effect :=
  Warn (quoted (keysJoin ks)
          (" is not registered and cannot be "
           ++ (if e then "enabled" else "disabled"))).

(** Does a binding have the join of one of the key-sequences? *)
Definition targeted (parsed : list (list token)) (b : keyBinding) : bool :=
  existsb (fun ks => has_join (keysJoin ks) b) parsed.

(** A binding after [#toggle]: switched when it is targeted. *)
Definition toggled (e : bool) (parsed : list (list token)) (b : keyBinding)
  : keyBinding :=
  if targeted parsed b then set_enabled b e else b.

(** One warning of [#toggle] per key-sequence that is not registered. *)
Definition toggle_warnings (e : bool) (bs : list keyBinding)
    (parsed : list (list token)) : list effect :=
  flat_map (fun ks => if existsb (has_join (keysJoin ks)) bs then []
                      else [warn_cannot e ks]) parsed.

(** The parser as the open question of the specification words it: of
    several alternation groups, the last one alone is expanded. *)
Definition parse_last_group_only (ks : string) : list (list token) :=
  let parts := keyParts ks in
  match rev (filter is_group parts) with
  | g :: _ => expansions (fixed_prefix parts) (alternatives_of g)
  | [] => [fixed_prefix parts]
  end.

Definition modifier_names : list string := ["ctrl"; "alt"; "shift"; "meta"].

(** The guard on the key identifier as the specification words it, read
    at its widest: the identifier is a modifier name, or an alias whose
    target is one. *)
Definition covered_by_modifier_name (k : string) : bool :=
  existsb (String.eqb k) modifier_names
  || match assoc k KEY_ALIAS_own with
     | Some v => existsb (String.eqb v) modifier_names
     | None => false
     end.

Definition pressed_as_worded (ev : event) : option (list string) :=
  match ev with
  | KeyboardEvent m key =>
      let k := JS.toLowerCase key in
      Some (modifier_tokens m
            ++ (if covered_by_modifier_name k then [] else [k]))
  | MouseEvent m => Some (modifier_tokens m ++ ["click"])
  | OtherEvent => None
  end.

(* ================================================================= *)
(** ** Vocabulary of the further properties *)

(** A string made of white space only (the empty string included). *)
Fixpoint all_white (s : string) : bool :=
  match s with
  | EmptyString => true
  | String c r => JS.is_white c && all_white r
  end.

(** A part of a spec that the parser keeps as it is: no surrounding white
    space, no [|], and a name that the alias table resolves to itself. *)
Definition plain_part (p : string) : bool :=
  String.eqb (JS.trim p) p
  && negb (is_group p)
  && match alias_or p with Str q => String.eqb q p | Inherited _ => false end.

(** The lines written by [console.log]. *)
Definition logged (out : list effect) : list string :=
  flat_map (fun x => match x with Log m => [m] | _ => [] end) out.

(** The events on which [preventDefault] was called. *)
Definition prevented (out : list effect) : list event :=
  flat_map (fun x => match x with PreventDefault ev => [ev] | _ => [] end) out.

(** The order of the default [sort]: [a] may stand before [b]. *)
Definition code_unit_le (a b : string) : Prop := String.ltb b a = false.

(** Opening a call of a public method: the guard on [keys], then the
    parser; [tac] closes the branches that throw. *)
Ltac open_call tac :=
  cbn [apply_op]; unfold bind, unbind, rebind, enable, disable, toggle;
  try match goal with
      | |- context [invalid_keys ?k] => destruct (invalid_keys k); [tac|]
      end;
  try match goal with
      | |- context [parseKeys ?k] =>
          destruct (parseKeys k) as [parsed|err]; cbn [bind_result]; [|tac]
      end.

(* ================================================================= *)
(** ** The examples of the documentation of [#parseKeys] *)

Example parse_s : parseKeys "s" = Ok [[Str "s"]].
Proof. reflexivity. Qed.
Example parse_ctrl_s : parseKeys "Ctrl + S" = Ok [[Str "ctrl"; Str "s"]].
Proof. reflexivity. Qed.
Example parse_ctrl_c_v :
  parseKeys "ctrl+c|v" = Ok [[Str "ctrl"; Str "c"]; [Str "ctrl"; Str "v"]].
Proof. reflexivity. Qed.
Example parse_ctrl_click : parseKeys "ctrl+click" = Ok [[Str "ctrl"; Str "click"]].
Proof. reflexivity. Qed.
Example parse_alias : parseKeys "control+esc" = Ok [[Str "ctrl"; Str "escape"]].
Proof. reflexivity. Qed.
Example parse_blank_alts : parseKeys "ctrl+|" = Throw InvalidFormat.
Proof. reflexivity. Qed.

(* ================================================================= *)
(** ** The tests of [tests/capynaut.test.ts], replayed *)

Example test_single_key :
  invoked (snd (dispatch inert "keydown" (KeyboardEvent no_mods "s")
                  (run_ops [OpBind "s" 1 "press s" true] new_registry)))
  = [1].
Proof. reflexivity. Qed.

Example test_combination :
  let st := run_ops [OpBind "ctrl+s" 1 "press ctrl + s" true] new_registry in
  invoked (snd (dispatch inert "keydown" (KeyboardEvent ctrl_only "s") st)) = [1]
  /\ invoked (snd (dispatch inert "keydown" (KeyboardEvent no_mods "s") st)) = [].
Proof. split; reflexivity. Qed.

Example test_alternation :
  let st := run_ops [OpBind "ctrl+c|v" 1 "" true] new_registry in
  invoked (snd (dispatch inert "keydown" (KeyboardEvent ctrl_only "c") st)) = [1]
  /\ invoked (snd (dispatch inert "keydown" (KeyboardEvent ctrl_only "v") st)) = [1].
Proof. split; reflexivity. Qed.

Example test_click :
  invoked (snd (dispatch inert "click" (MouseEvent ctrl_only)
                  (run_ops [OpBind "ctrl+click" 1 "" true] new_registry)))
  = [1].
Proof. reflexivity. Qed.

Example test_unbind :
  invoked (snd (dispatch inert "keydown" (KeyboardEvent no_mods "s")
                  (run_ops [OpBind "s" 1 "" true; OpUnbind "s"] new_registry)))
  = [].
Proof. reflexivity. Qed.

Example test_rebind :
  invoked (snd (dispatch inert "keydown" (KeyboardEvent no_mods "s")
                  (run_ops [OpBind "s" 1 "" true; OpRebind "s" 2 "" true]
                     new_registry)))
  = [2].
Proof. reflexivity. Qed.

Example test_disable_enable :
  let st := run_ops [OpBind "s" 1 "" true; OpDisable "s"] new_registry in
  invoked (snd (dispatch inert "keydown" (KeyboardEvent no_mods "s") st)) = []
  /\ invoked (snd (dispatch inert "keydown" (KeyboardEvent no_mods "s")
                     (after (OpEnable "s") st))) = [1].
Proof. split; reflexivity. Qed.

Example test_destroy :
  invoked (snd (dispatch inert "keydown" (KeyboardEvent no_mods "s")
                  (run_ops [OpBind "s" 1 "press s" true; OpDestroy]
                     new_registry)))
  = [].
Proof. reflexivity. Qed.

Example test_docs :
  let st := run_ops [OpBind "s" 1 "press s" true] new_registry in
  docs true st = [(Readable "s", "press s")]
  /\ docs false st = [(Raw [Str "s"], "press s")].
Proof. split; reflexivity. Qed.

Example test_debug :
  snd (dispatch inert "keydown" (KeyboardEvent ctrl_only "s")
         (run_ops [OpDebug true] new_registry))
  = [Log "ctrl + s"].
Proof. reflexivity. Qed.

(* ================================================================= *)
(** ** The parser *)

Section Parser.

Lemma split_not_nil sep s : JS.split sep s <> [].
Proof.
  destruct s as [|c r]; simpl; [discriminate|].
  destruct (Ascii.eqb c sep); [discriminate|].
  destruct (JS.split sep r); discriminate.
Qed.

Lemma alternatives_not_nil part : alternatives_of part <> [].
Proof.
  unfold alternatives_of. intro H. apply map_eq_nil in H.
  exact (split_not_nil _ _ H).
Qed.

Lemma collect_part_eq base alts p :
  collect_part (base, alts) p
  = if is_group p then (base, alts ++ alternatives_of p)
    else (base ++ [alias_or p], alts).
Proof. reflexivity. Qed.

Lemma collect_from parts : forall base alts,
  fold_left collect_part parts (base, alts)
  = (base ++ fixed_prefix parts, alts ++ all_alternatives parts).
Proof.
  unfold fixed_prefix, all_alternatives.
  induction parts as [|p parts IH]; intros base alts;
    cbn [fold_left filter].
  - cbn. now rewrite !app_nil_r.
  - rewrite collect_part_eq.
    destruct (is_group p); cbn [negb map flat_map]; rewrite IH;
      now rewrite <- app_assoc.
Qed.

Lemma collect_eq parts :
  collect parts = (fixed_prefix parts, all_alternatives parts).
Proof. unfold collect. now rewrite collect_from. Qed.

Lemma no_alternative_iff parts :
  all_alternatives parts = [] <-> existsb is_group parts = false.
Proof.
  unfold all_alternatives.
  induction parts as [|p parts IH]; simpl; [tauto|].
  destruct (is_group p) eqn:G; simpl.
  - split; [|discriminate]. intro H. apply app_eq_nil in H.
    destruct H as [H _]. now apply alternatives_not_nil in H.
  - exact IH.
Qed.

Lemma merge_thrown base alts e :
  fold_left (merge_key base) alts (Throw e) = Throw e.
Proof. induction alts as [|k alts IH]; simpl; auto. Qed.

Lemma merge_strings base : forall alts done,
  forallb is_string alts = true ->
  fold_left (merge_key base) alts (Ok done)
  = Ok (done ++ expansions base alts).
Proof.
  unfold expansions.
  induction alts as [|k alts IH]; intros done H; simpl.
  - now rewrite app_nil_r.
  - simpl in H. apply andb_true_iff in H. destruct H as [Hk H].
    destruct k as [s|n]; [|discriminate]. simpl.
    destruct (JS.is_empty (JS.trim s)); simpl.
    + now apply IH.
    + rewrite IH by assumption. now rewrite <- app_assoc.
Qed.

Lemma merge_not_a_function base : forall alts done,
  forallb is_string alts = false ->
  fold_left (merge_key base) alts (Ok done) = Throw NotAFunction.
Proof.
  induction alts as [|k alts IH]; intros done H; simpl in *; [discriminate|].
  destruct k as [s|n]; simpl in *.
  - destruct (JS.is_empty (JS.trim s)); now apply IH.
  - apply merge_thrown.
Qed.

(** The parser in closed form. *)
Lemma parseKeys_eq ks :
  parseKeys ks
  = let parts := keyParts ks in
    if existsb is_group parts then
      if forallb is_string (all_alternatives parts) then
        match expansions (fixed_prefix parts) (all_alternatives parts) with
        | [] => Throw InvalidFormat
        | e :: es => Ok (e :: es)
        end
      else Throw NotAFunction
    else Ok [fixed_prefix parts].
Proof.
  unfold parseKeys. rewrite collect_eq. cbv zeta.
  destruct (existsb is_group (keyParts ks)) eqn:G.
  - destruct (all_alternatives (keyParts ks)) as [|a alts] eqn:A.
    + apply no_alternative_iff in A. congruence.
    + cbn [List.length Nat.eqb negb]. rewrite <- A.
      destruct (forallb is_string (all_alternatives (keyParts ks))) eqn:S.
      * rewrite merge_strings by assumption. cbn [app bind_result].
        now destruct (expansions _ _).
      * now rewrite merge_not_a_function.
  - apply no_alternative_iff in G. now rewrite G.
Qed.

End Parser.

(** Whatever the input, a result of the parser is not the empty list. *)
Lemma parseKeys_not_nil ks r : parseKeys ks = Ok r -> r <> [].
Proof.
  rewrite parseKeys_eq. cbv zeta.
  destruct (existsb is_group (keyParts ks)).
  - destruct (forallb is_string _); [|discriminate].
    destruct (expansions _ _); [discriminate|].
    intros H; inversion H; discriminate.
  - intros H; inversion H; discriminate.
Qed.

(** The parser on an input none of whose alternatives names a member of
    [Object.prototype]: one key-sequence per alternative that is not blank,
    in order, each the prefix followed by the alternative; the
    invalid-format error when none is left; the prefix alone when the
    input has no alternation. *)
Lemma parseKeys_string_alternatives ks :
  let parts := keyParts ks in
  forallb is_string (all_alternatives parts) = true ->
  (existsb is_group parts = true ->
     (filter non_blank (all_alternatives parts) <> [] ->
        parseKeys ks
        = Ok (map (fun k => fixed_prefix parts ++ [k])
                (filter non_blank (all_alternatives parts))))
     /\ (filter non_blank (all_alternatives parts) = [] ->
           parseKeys ks = Throw InvalidFormat))
  /\ (existsb is_group parts = false ->
        parseKeys ks = Ok [fixed_prefix parts]).
Proof.
  intros parts S. rewrite parseKeys_eq. fold parts. cbv zeta.
  rewrite S. unfold expansions. split.
  - intros ->. split.
    + destruct (filter non_blank (all_alternatives parts)); [congruence|].
      reflexivity.
    + now intros ->.
  - now intros ->.
Qed.

(** C2, at the input ["a|constructor"]: neither alternative is blank, so
    the specification has the parser yield two key-sequences; the second
    alternative resolves through [KEY_ALIAS] to the inherited [Object]
    function, [key.trim()] is called on it, and the parser (and [bind]
    with it) throws the engine's "not a function" error instead. *)
Theorem C2_inherited_alternative_throws :
  all_alternatives (keyParts "a|constructor")
  = [Str "a"; Inherited "constructor"]
  /\ filter non_blank (all_alternatives (keyParts "a|constructor"))
     = [Str "a"; Inherited "constructor"]
  /\ parseKeys "a|constructor" = Throw NotAFunction
  /\ bind "a|constructor" 1 "" true new_registry = Throw NotAFunction.
Proof. repeat split; reflexivity. Qed.

(** C6, as stated, fails at ["a|b+c|d"]: the alternatives [a] and [b] of
    the first group are expanded as well as those of the last. *)
Lemma C6_counterexample_two_groups :
  List.length (filter is_group (keyParts "a|b+c|d")) = 2
  /\ parseKeys "a|b+c|d" = Ok [[Str "a"]; [Str "b"]; [Str "c"]; [Str "d"]]
  /\ parse_last_group_only "a|b+c|d" = [[Str "c"]; [Str "d"]]
  /\ parseKeys "a|b+c|d" <> Ok (parse_last_group_only "a|b+c|d").
Proof. repeat split; try reflexivity. vm_compute. discriminate. Qed.

(** C6, amended: when a spec with more than one alternation group parses,
    every group governs the expansion: the alternatives of all the groups,
    in the order the groups and their alternatives appear, give one
    key-sequence each, the non-alternation prefix followed by the
    alternative, the blank ones skipped. *)
Theorem C6_every_group_is_expanded ks r :
  2 <= List.length (filter is_group (keyParts ks)) ->
  parseKeys ks = Ok r ->
  r = map (fun k => fixed_prefix (keyParts ks) ++ [k])
        (filter non_blank
           (flat_map alternatives_of (filter is_group (keyParts ks)))).
Proof.
  intros G. rewrite parseKeys_eq. cbv zeta.
  destruct (existsb is_group (keyParts ks)) eqn:E.
  - destruct (forallb is_string _); [|discriminate].
    fold (all_alternatives (keyParts ks)). unfold expansions.
    destruct (map _ _); [discriminate|]. now intros H; inversion H.
  - exfalso. apply no_alternative_iff in E. unfold all_alternatives in E.
    destruct (filter is_group (keyParts ks)) as [|g gs]; [simpl in G; lia|].
    simpl in E. apply app_eq_nil in E. destruct E as [E _].
    now apply alternatives_not_nil in E.
Qed.

Lemma C6_every_group_is_expanded_witness :
  2 <= List.length (filter is_group (keyParts "ctrl+a|b+c|d"))
  /\ parseKeys "ctrl+a|b+c|d"
     = Ok [[Str "ctrl"; Str "a"]; [Str "ctrl"; Str "b"];
           [Str "ctrl"; Str "c"]; [Str "ctrl"; Str "d"]]
  /\ [[Str "ctrl"; Str "a"]; [Str "ctrl"; Str "b"];
      [Str "ctrl"; Str "c"]; [Str "ctrl"; Str "d"]]
     = map (fun k => fixed_prefix (keyParts "ctrl+a|b+c|d") ++ [k])
         (filter non_blank
            (flat_map alternatives_of
               (filter is_group (keyParts "ctrl+a|b+c|d")))).
Proof.
  split; [vm_compute; lia|]. split; [reflexivity|].
  apply (C6_every_group_is_expanded "ctrl+a|b+c|d"); [vm_compute; lia|].
  reflexivity.
Defined.

(* ================================================================= *)
(** ** The event handler *)

Section HandlerFacts.

Variable run : fn -> event -> registry -> registry * bool.

Lemma find_first {A} (f : A -> bool) before b rest :
  f b = true ->
  (forall x, In x before -> f x = false) ->
  find f (before ++ b :: rest) = Some b.
Proof.
  intros Hb. induction before as [|x before IH]; intros Hx; simpl.
  - now rewrite Hb.
  - rewrite (Hx x (or_introl eq_refl)). apply IH.
    intros y Hy. apply Hx. now right.
Qed.

Lemma find_nowhere {A} (f : A -> bool) l :
  (forall x, In x l -> f x = false) -> find f l = None.
Proof.
  induction l as [|x l IH]; intros Hx; simpl; [reflexivity|].
  rewrite (Hx x (or_introl eq_refl)). apply IH.
  intros y Hy. apply Hx. now right.
Qed.

Lemma fires_iff pressed b :
  fires pressed b = true
  <-> sortedBinding b = sortedPressed pressed /\ enabled b = true.
Proof.
  unfold fires. rewrite andb_true_iff, String.eqb_eq. tauto.
Qed.

Lemma not_fires_iff pressed b :
  fires pressed b = false
  <-> enabled b = false \/ sortedBinding b <> sortedPressed pressed.
Proof.
  unfold fires. rewrite andb_false_iff, String.eqb_neq. tauto.
Qed.

Lemma invoked_debug_log st pressed : invoked (debug_log st pressed) = [].
Proof. unfold debug_log. now destruct (debug_flag st). Qed.

(** What the handler does, from the binding the loop stops at. *)
Lemma handleKeydown_found ev st pressed b :
  pressed_of ev = Some pressed ->
  find (fires pressed) (bindings st) = Some b ->
  handleKeydown run ev st
  = (fst (run (callback b) ev st),
     PreventDefault ev :: Invoke (callback b) ev
     :: (if snd (run (callback b) ev st)
         then debug_log (fst (run (callback b) ev st)) pressed else []))
  /\ invoked (snd (handleKeydown run ev st)) = [callback b].
Proof.
  intros P F. unfold handleKeydown. rewrite P, F.
  destruct (run (callback b) ev st) as [st' returned]. cbn [fst snd].
  split; [reflexivity|]. cbn.
  destruct returned; [apply f_equal, invoked_debug_log | reflexivity].
Qed.

Lemma handleKeydown_not_found ev st pressed :
  pressed_of ev = Some pressed ->
  find (fires pressed) (bindings st) = None ->
  handleKeydown run ev st = (st, debug_log st pressed).
Proof. intros P F. unfold handleKeydown. now rewrite P, F. Qed.

Lemma at_most_one_invoked ev st :
  List.length (invoked (snd (handleKeydown run ev st))) <= 1.
Proof.
  destruct (pressed_of ev) as [pressed|] eqn:P.
  - destruct (find (fires pressed) (bindings st)) as [b|] eqn:F.
    + destruct (handleKeydown_found ev st pressed b P F) as [_ ->].
      simpl; lia.
    + rewrite (handleKeydown_not_found ev st pressed P F). cbn [snd].
      rewrite invoked_debug_log. simpl; lia.
  - unfold handleKeydown. rewrite P. simpl; lia.
Qed.

(** C1: on a keyboard or mouse event with pressed tokens [pressed], the
    handler invokes at most one callback; when [b] is the first binding in
    registration order that is enabled and whose sorted and joined keys
    equal the sorted and joined pressed tokens (the bindings before it
    being disabled or not matching), the handler calls [preventDefault] on
    the event, then the callback of [b] with the event, and no other
    callback; when no binding is enabled and matching, it calls neither. *)
Theorem C1_first_enabled_match_is_invoked ev st pressed :
  pressed_of ev = Some pressed ->
  List.length (invoked (snd (handleKeydown run ev st))) <= 1
  /\ (forall before b rest,
        bindings st = before ++ b :: rest ->
        enabled b = true ->
        sortedBinding b = sortedPressed pressed ->
        (forall b', In b' before ->
           enabled b' = false \/ sortedBinding b' <> sortedPressed pressed) ->
        let st' := fst (run (callback b) ev st) in
        let returned := snd (run (callback b) ev st) in
        handleKeydown run ev st
        = (st', PreventDefault ev :: Invoke (callback b) ev
                :: (if returned then debug_log st' pressed else []))
        /\ invoked (snd (handleKeydown run ev st)) = [callback b])
  /\ ((forall b, In b (bindings st) ->
         enabled b = false \/ sortedBinding b <> sortedPressed pressed) ->
      handleKeydown run ev st = (st, debug_log st pressed)
      /\ invoked (snd (handleKeydown run ev st)) = []).
Proof.
  intros P. split; [apply at_most_one_invoked|]. split.
  - intros before b rest B E M Before. cbv zeta.
    apply handleKeydown_found; [assumption|]. rewrite B.
    apply find_first.
    + apply fires_iff. now split.
    + intros x Hx. apply not_fires_iff. now apply Before.
  - intros None_fires.
    assert (F : find (fires pressed) (bindings st) = None).
    { apply find_nowhere. intros x Hx. apply not_fires_iff.
      now apply None_fires. }
    rewrite (handleKeydown_not_found ev st pressed P F). cbn [snd].
    split; [reflexivity | apply invoked_debug_log].
Qed.

End HandlerFacts.

(** A disabled binding for [ctrl+s] registered first, an enabled one with
    the same canonical form registered second: the second is invoked. *)
Lemma C1_first_enabled_match_is_invoked_witness :
  let st := run_ops [OpBind "ctrl+s" 1 "first" false;
                     OpBind "s+ctrl" 2 "second" true] new_registry in
  let ev := KeyboardEvent ctrl_only "S" in
  pressed_of ev = Some ["ctrl"; "s"]
  /\ handleKeydown inert ev st = (st, [PreventDefault ev; Invoke 2 ev]).
Proof.
  cbv zeta.
  set (st := run_ops _ _). set (ev := KeyboardEvent _ _).
  split; [reflexivity|].
  destruct (C1_first_enabled_match_is_invoked inert ev st ["ctrl"; "s"]
              eq_refl) as (_ & First & _).
  destruct (First [mkBinding [Str "ctrl"; Str "s"] 1 "first" false]
              (mkBinding [Str "s"; Str "ctrl"] 2 "second" true) [])
    as [H _].
  - reflexivity.
  - reflexivity.
  - reflexivity.
  - intros b' [<-|[]]. now left.
  - exact H.
Defined.

(* ----------------------------------------------------------------- *)
(** *** The pressed tokens *)

Lemma alias_lookup_own k :
  is_inherited k = false ->
  not_in_alias_table k
  = negb (existsb (String.eqb k)
            ["esc"; "del"; "space"; "control"; "alt"; "shift"; "meta"]).
Proof.
  intros I. unfold not_in_alias_table, KEY_ALIAS, KEY_ALIAS_own.
  cbn [assoc existsb].
  repeat match goal with
         | |- context [String.eqb k ?s] => destruct (String.eqb k s)
         end; try reflexivity.
  now rewrite I.
Qed.

(** C5, as stated, fails on a key event whose identifier is [Esc]: the
    identifier is not a modifier name, and its alias target [escape] is
    not one either, so the specification has [esc] pushed; the handler
    pushes nothing, because [esc] is a key of the alias table. *)
Lemma C5_counterexample_esc_key :
  let ev := KeyboardEvent no_mods "Esc" in
  covered_by_modifier_name "esc" = false
  /\ KEY_ALIAS "esc" = Some (Str "escape")
  /\ pressed_as_worded ev = Some ["esc"]
  /\ pressed_of ev = Some []
  /\ pressed_of ev <> pressed_as_worded ev.
Proof. cbv zeta. repeat split; try reflexivity. discriminate. Qed.

(** C5, amended: the pressed tokens are [ctrl], [alt], [shift], [meta] for
    the active modifier flags, in that order, followed by [click] for a
    mouse event, or for a key event by the lower-cased key identifier
    unless that identifier is one of the keys [esc], [del], [space],
    [control], [alt], [shift], [meta] of the alias table (identifiers that
    name a member of [Object.prototype] are left aside); an event that is
    neither is ignored: the state is unchanged and nothing is emitted,
    whatever the debug flag. *)
Theorem C5_pressed_tokens run st :
  (forall m,
     modifier_tokens m
     = map fst (filter snd [("ctrl", ctrlKey m); ("alt", altKey m);
                            ("shift", shiftKey m); ("meta", metaKey m)]))
  /\ (forall m, pressed_of (MouseEvent m) = Some (modifier_tokens m ++ ["click"]))
  /\ (forall m key,
        is_inherited (JS.toLowerCase key) = false ->
        pressed_of (KeyboardEvent m key)
        = Some (modifier_tokens m
                ++ (if existsb (String.eqb (JS.toLowerCase key))
                         ["esc"; "del"; "space"; "control"; "alt"; "shift";
                          "meta"]
                    then [] else [JS.toLowerCase key])))
  /\ pressed_of OtherEvent = None
  /\ handleKeydown run OtherEvent st = (st, []).
Proof.
  repeat split.
  - intros [c a s m]; destruct c, a, s, m; reflexivity.
  - intros m key I. unfold pressed_of. rewrite (alias_lookup_own _ I).
    now destruct (existsb _ _).
Qed.

Lemma C5_pressed_tokens_witness :
  is_inherited (JS.toLowerCase "Control") = false
  /\ pressed_of (KeyboardEvent (mkMods true false true false) "Control")
     = Some ["ctrl"; "shift"]
  /\ is_inherited (JS.toLowerCase "K") = false
  /\ pressed_of (KeyboardEvent (mkMods true false true false) "K")
     = Some ["ctrl"; "shift"; "k"].
Proof.
  destruct (C5_pressed_tokens inert new_registry) as (_ & _ & Key & _).
  split; [reflexivity|]. split; [|split; [reflexivity|]].
  - exact (Key (mkMods true false true false) "Control" eq_refl).
  - exact (Key (mkMods true false true false) "K" eq_refl).
Defined.

(* ================================================================= *)
(** ** What the operations leave alone *)

Lemma fold_acc_shape {A} (f : acc -> A -> acc) (l : list A) (a : acc) :
  exists bs out, fold_left f l a = (bs, out).
Proof. destruct (fold_left f l a) as [bs out]. eauto. Qed.

(** A call that returns has replaced the bindings, or set the debug flag,
    or destroyed the registry. *)
Lemma apply_op_shape o st st' out :
  apply_op o st = Ok (st', out) ->
  (exists bs, st' = set_bindings st bs)
  \/ (exists e, st' = debug e st)
  \/ st' = destroy st.
Proof.
  destruct o as [ks cb d e|ks|ks cb d e|ks|ks|e| |r];
    open_call discriminate.
  - destruct (fold_left _ parsed _) as [bs o]. intros H; inversion H; eauto.
  - destruct (fold_left _ parsed _) as [bs o]. intros H; inversion H; eauto.
  - destruct (fold_left _ parsed _) as [bs o]. intros H; inversion H; eauto.
  - destruct (fold_left _ parsed _) as [bs o]. intros H; inversion H; eauto.
  - destruct (fold_left _ parsed _) as [bs o]. intros H; inversion H; eauto.
  - intros H; inversion H; eauto.
  - intros H; inversion H; eauto.
  - intros H; inversion H. left. exists (bindings st'). now destruct st'.
Qed.

(** No operation attaches a listener. *)
Lemma after_detached o st :
  keydown_listener st = false -> click_listener st = false ->
  keydown_listener (after o st) = false /\ click_listener (after o st) = false.
Proof.
  intros K C. unfold after.
  destruct (apply_op o st) as [[st' out]|err] eqn:E; [|now split].
  apply apply_op_shape in E.
  destruct E as [[bs ->]|[[e ->]| ->]]; now split.
Qed.

Lemma run_ops_detached ops : forall st,
  keydown_listener st = false -> click_listener st = false ->
  keydown_listener (run_ops ops st) = false
  /\ click_listener (run_ops ops st) = false.
Proof.
  induction ops as [|o ops IH]; intros st K C; [now split|].
  cbn [run_ops fold_left]. destruct (after_detached o st K C) as [K' C'].
  now apply IH.
Qed.

Lemma dispatch_detached run ty ev st :
  keydown_listener st = false -> click_listener st = false ->
  dispatch run ty ev st = (st, []).
Proof.
  intros K C. unfold dispatch. rewrite K, C. now rewrite !andb_false_r.
Qed.

(** C8: [destroy] detaches the two listeners and leaves no binding; a
    second [destroy] returns without throwing and gives the same state;
    after [destroy], and after whatever public operations follow it, no
    dispatched event reaches the handler: no callback is invoked, nothing
    is emitted and the state is untouched. *)
Theorem C8_destroy_is_idempotent run st :
  bindings (destroy st) = []
  /\ keydown_listener (destroy st) = false
  /\ click_listener (destroy st) = false
  /\ apply_op OpDestroy (destroy st) = Ok (destroy st, [])
  /\ destroy (destroy st) = destroy st
  /\ (forall ty ev, dispatch run ty ev (destroy st) = (destroy st, []))
  /\ (forall ops ty ev,
        let st' := run_ops ops (destroy st) in
        dispatch run ty ev st' = (st', [])
        /\ invoked (snd (dispatch run ty ev st')) = []).
Proof.
  do 5 (split; [reflexivity|]). split.
  - intros ty ev. now apply dispatch_detached.
  - intros ops ty ev st'.
    destruct (run_ops_detached ops (destroy st) eq_refl eq_refl) as [K C].
    fold st' in K, C. now rewrite (dispatch_detached run ty ev st' K C).
Qed.

(* ================================================================= *)
(** ** Lists of bindings *)

Lemma joins_app bs cs : joins (bs ++ cs) = joins bs ++ joins cs.
Proof. apply map_app. Qed.

Lemma has_join_iff j b : has_join j b = true <-> keysJoin (keys b) = j.
Proof. apply String.eqb_eq. Qed.

Lemma registered_iff j bs : existsb (has_join j) bs = true <-> In j (joins bs).
Proof.
  unfold joins. rewrite existsb_exists, in_map_iff.
  split; intros (b & H1 & H2); exists b.
  - split; [now apply has_join_iff | assumption].
  - split; [assumption | now apply has_join_iff].
Qed.

Lemma not_registered_iff j bs :
  existsb (has_join j) bs = false <-> ~ In j (joins bs).
Proof.
  rewrite <- registered_iff. now destruct (existsb (has_join j) bs).
Qed.

Lemma without_absent j bs : existsb (has_join j) bs = false -> without j bs = bs.
Proof.
  unfold without. induction bs as [|b bs IH]; simpl; [reflexivity|].
  intros H. apply orb_false_iff in H. destruct H as [Hb H].
  rewrite Hb. simpl. now rewrite IH.
Qed.

Lemma without_length j bs : List.length (without j bs) <= List.length bs.
Proof. apply filter_length_le. Qed.

Lemma without_shorter j bs :
  existsb (has_join j) bs = true ->
  List.length (without j bs) < List.length bs.
Proof.
  unfold without. induction bs as [|b bs IH]; simpl; [discriminate|].
  destruct (has_join j b); simpl; intros H.
  - pose proof (without_length j bs). unfold without in *. lia.
  - apply IH in H. lia.
Qed.

Lemma joins_without j bs x :
  In x (joins (without j bs)) <-> In x (joins bs) /\ x <> j.
Proof.
  unfold joins, without. rewrite !in_map_iff. split.
  - intros (b & <- & Hb). apply filter_In in Hb. destruct Hb as [Hb N].
    split; [now exists b|]. intros E. apply has_join_iff in E.
    now rewrite E in N.
  - intros [(b & <- & Hb) N]. exists b. split; [reflexivity|].
    apply filter_In. split; [assumption|].
    destruct (has_join j b) eqn:E; [|reflexivity].
    now apply has_join_iff in E.
Qed.

Lemma NoDup_joins_filter (p : keyBinding -> bool) bs :
  NoDup (joins bs) -> NoDup (joins (filter p bs)).
Proof.
  unfold joins. induction bs as [|b bs IH]; simpl; intros H; [constructor|].
  inversion H as [|? ? N D]; subst.
  destruct (p b); simpl; [|now apply IH].
  constructor; [|now apply IH].
  intros I. apply N. apply in_map_iff in I. destruct I as (c & E & I).
  apply in_map_iff. exists c. split; [assumption|].
  now apply filter_In in I.
Qed.

Lemma NoDup_joins_snoc bs b :
  NoDup (joins bs) -> ~ In (keysJoin (keys b)) (joins bs) ->
  NoDup (joins (bs ++ [b])).
Proof.
  intros D N. rewrite joins_app. simpl.
  apply NoDup_app; [assumption|repeat constructor; now intros []|].
  intros x Hx [<-|[]]. now apply N.
Qed.

(* ================================================================= *)
(** ** One binding per join *)

Section Uniqueness.

Variables (cb : fn) (d : string) (e : bool).

Lemma bind_one_unique a ks :
  NoDup (joins (fst a)) -> NoDup (joins (fst (bind_one cb d e a ks))).
Proof.
  destruct a as [bs out]. unfold bind_one. cbn [fst].
  destruct (existsb (has_join (keysJoin ks)) bs) eqn:E; cbn [negb fst];
    [trivial|].
  intros D. apply NoDup_joins_snoc; [assumption|].
  now apply not_registered_iff.
Qed.

Lemma unbind_one_unique a ks :
  NoDup (joins (fst a)) -> NoDup (joins (fst (unbind_one a ks))).
Proof.
  destruct a as [bs out]. unfold unbind_one. cbn [fst]. intros D.
  destruct (_ =? _)%nat; cbn [fst]; now apply NoDup_joins_filter.
Qed.

Lemma rebind_one_unique a ks :
  NoDup (joins (fst a)) -> NoDup (joins (fst (rebind_one cb d e a ks))).
Proof.
  destruct a as [bs out]. unfold rebind_one. cbn [fst]. intros D.
  destruct (_ <? _)%nat; cbn [fst]; [|now apply NoDup_joins_filter].
  apply NoDup_joins_snoc; [now apply NoDup_joins_filter|].
  cbn [keys]. fold (without (keysJoin ks) bs). rewrite joins_without.
  now intros [_ N].
Qed.

Lemma toggle_one_joins a ks :
  joins (fst (toggle_one e a ks)) = joins (fst a).
Proof.
  destruct a as [bs out]. unfold toggle_one. cbn [fst].
  assert (J : joins (map (fun b => if has_join (keysJoin ks) b
                                   then set_enabled b e else b) bs)
              = joins bs).
  { unfold joins. rewrite map_map. apply map_ext. intros b.
    now destruct (has_join _ b). }
  now destruct (negb _); cbn [fst].
Qed.

Lemma fold_unique {A} (f : acc -> A -> acc) :
  (forall a x, NoDup (joins (fst a)) -> NoDup (joins (fst (f a x)))) ->
  forall l a, NoDup (joins (fst a)) -> NoDup (joins (fst (fold_left f l a))).
Proof.
  intros Hf. induction l as [|x l IH]; intros a D; [assumption|].
  simpl. apply IH. now apply Hf.
Qed.

End Uniqueness.

Lemma after_unique o st :
  NoDup (joins (bindings st)) -> NoDup (joins (bindings (after o st))).
Proof.
  intros D. unfold after.
  destruct o as [ks cb d e|ks|ks cb d e|ks|ks|e| |r];
    open_call assumption; try assumption.
  - pose proof (fold_unique (bind_one cb d e) (bind_one_unique cb d e)
                  parsed (bindings st, []) D) as H.
    now destruct (fold_left _ parsed _).
  - pose proof (fold_unique unbind_one unbind_one_unique
                  parsed (bindings st, []) D) as H.
    now destruct (fold_left _ parsed _).
  - pose proof (fold_unique (rebind_one cb d e) (rebind_one_unique cb d e)
                  parsed (bindings st, []) D) as H.
    now destruct (fold_left _ parsed _).
  - pose proof (fold_unique (toggle_one true)
                  (fun a x H => eq_ind_r (fun l => NoDup l) H
                                  (toggle_one_joins true a x))
                  parsed (bindings st, []) D) as H.
    now destruct (fold_left _ parsed _).
  - pose proof (fold_unique (toggle_one false)
                  (fun a x H => eq_ind_r (fun l => NoDup l) H
                                  (toggle_one_joins false a x))
                  parsed (bindings st, []) D) as H.
    now destruct (fold_left _ parsed _).
  - constructor.
Qed.

Lemma run_ops_unique ops : forall st,
  NoDup (joins (bindings st)) -> NoDup (joins (bindings (run_ops ops st))).
Proof.
  induction ops as [|o ops IH]; intros st D; [assumption|].
  cbn [run_ops fold_left]. apply IH. now apply after_unique.
Qed.

Lemma reachable_unique st : reachable st -> NoDup (joins (bindings st)).
Proof.
  intros [ops <-]. apply run_ops_unique. constructor.
Qed.

(* ================================================================= *)
(** ** [bind] *)

Section Bind.

Variables (cb : fn) (d : string) (e : bool).

Lemma bind_one_registered bs out ks :
  In (keysJoin ks) (joins bs) ->
  bind_one cb d e (bs, out) ks = (bs, out ++ [warn_registered ks]).
Proof.
  intros I. apply registered_iff in I. unfold bind_one. now rewrite I.
Qed.

Lemma bind_one_fresh bs out ks :
  ~ In (keysJoin ks) (joins bs) ->
  bind_one cb d e (bs, out) ks = (bs ++ [mkBinding ks cb d e], out).
Proof.
  intros I. apply not_registered_iff in I. unfold bind_one. now rewrite I.
Qed.

(** The loop of [bind]: the bindings it started from stay in front; every
    key-sequence gives either a new binding or a warning, according to
    whether its join is registered when its turn comes. *)
Lemma bind_loop : forall parsed bs out,
  exists added warns,
    fold_left (bind_one cb d e) parsed (bs, out) = (bs ++ added, out ++ warns)
    /\ List.length added + List.length warns = List.length parsed
    /\ (forall b, In b added ->
          exists ks, In ks parsed /\ b = mkBinding ks cb d e
                     /\ ~ In (keysJoin ks) (joins bs))
    /\ (forall w, In w warns ->
          exists ks, In ks parsed /\ w = warn_registered ks)
    /\ (forall i ks, nth_error parsed i = Some ks ->
          let seen := joins bs ++ map keysJoin (firstn i parsed) in
          (In (keysJoin ks) seen -> In (warn_registered ks) warns)
          /\ (~ In (keysJoin ks) seen -> In (mkBinding ks cb d e) added)).
Proof.
  induction parsed as [|k parsed IH]; intros bs out.
  - exists [], []. rewrite !app_nil_r. repeat split; try easy.
    + now destruct i.
    + now destruct i.
  - cbn [fold_left].
    destruct (in_dec string_dec (keysJoin k) (joins bs)) as [I|I].
    + rewrite (bind_one_registered bs out k I).
      destruct (IH bs (out ++ [warn_registered k]))
        as (added & warns & F & L & A & W & P).
      exists added, (warn_registered k :: warns).
      rewrite F, <- app_assoc. split; [reflexivity|].
      split; [simpl in *; lia|]. split; [|split].
      * intros b Hb. destruct (A b Hb) as (ks & K1 & K2 & K3).
        exists ks. split; [now right|]. now split.
      * intros w [<-|Hw]; [exists k; split; [now left|reflexivity]|].
        destruct (W w Hw) as (ks & K1 & K2). exists ks. split; [now right|assumption].
      * intros [|i] ks N; cbn [nth_error firstn map] in *.
        -- inversion N; subst ks. rewrite app_nil_r. split.
           ++ now left.
           ++ now intros [].
        -- destruct (P i ks N) as [P1 P2]. cbv zeta in *. split.
           ++ intros S. right. apply P1. rewrite in_app_iff in *.
              destruct S as [S|[<-|S]]; auto.
           ++ intros S. apply P2. intros S'. apply S.
              rewrite in_app_iff in *. destruct S' as [S'|S']; auto.
              right. now right.
    + rewrite (bind_one_fresh bs out k I).
      destruct (IH (bs ++ [mkBinding k cb d e]) out)
        as (added & warns & F & L & A & W & P).
      exists (mkBinding k cb d e :: added), warns.
      rewrite F, <- app_assoc. split; [reflexivity|].
      split; [simpl in *; lia|]. split; [|split].
      * intros b [<-|Hb];
          [exists k; split; [now left|]; split; [reflexivity|assumption]|].
        destruct (A b Hb) as (ks & K1 & K2 & K3).
        exists ks. split; [now right|]. split; [assumption|].
        intros J. apply K3. rewrite joins_app, in_app_iff. now left.
      * intros w Hw. destruct (W w Hw) as (ks & K1 & K2).
        exists ks. split; [now right|assumption].
      * intros [|i] ks N; cbn [nth_error firstn map] in *.
        -- inversion N; subst ks. rewrite app_nil_r. split.
           ++ intros S. contradiction.
           ++ intros _. now left.
        -- destruct (P i ks N) as [P1 P2]. cbv zeta in *.
           rewrite joins_app in P1, P2. cbn [joins map] in P1, P2. split.
           ++ intros S. apply P1. rewrite !in_app_iff in *. cbn [In].
              destruct S as [S|[<-|S]]; auto.
           ++ intros S. right. apply P2. intros S'. apply S.
              rewrite !in_app_iff in *. cbn [In] in *.
              destruct S' as [[S'|[<-|[]]]|S']; auto.
Qed.

End Bind.

Lemma set_bindings_same st : set_bindings st (bindings st) = st.
Proof. now destruct st. Qed.

Lemma bind_all_registered cb d e : forall parsed bs out,
  (forall ks, In ks parsed -> In (keysJoin ks) (joins bs)) ->
  fold_left (bind_one cb d e) parsed (bs, out)
  = (bs, out ++ map warn_registered parsed).
Proof.
  induction parsed as [|k parsed IH]; intros bs out R; cbn [fold_left map].
  - now rewrite app_nil_r.
  - rewrite bind_one_registered by (apply R; now left).
    rewrite IH by (intros ks Hks; apply R; now right).
    now rewrite <- app_assoc.
Qed.

Lemma bind_returns ks cb d e st parsed :
  invalid_keys ks = false -> parseKeys ks = Ok parsed ->
  bind ks cb d e st
  = Ok (set_bindings st
          (fst (fold_left (bind_one cb d e) parsed (bindings st, []))),
        snd (fold_left (bind_one cb d e) parsed (bindings st, []))).
Proof.
  intros V P. unfold bind. rewrite V, P. cbn [bind_result].
  now destruct (fold_left _ parsed _).
Qed.

Lemma bind_inv ks cb d e st st' out :
  bind ks cb d e st = Ok (st', out) ->
  exists parsed, invalid_keys ks = false /\ parseKeys ks = Ok parsed.
Proof.
  unfold bind. destruct (invalid_keys ks); [discriminate|].
  destruct (parseKeys ks) as [parsed|err]; [|discriminate]. eauto.
Qed.

(** C3: in every state the public operations reach from a fresh registry
    there is at most one binding per join string; a [bind] keeps it so,
    leaves the registered bindings in place and only appends bindings
    whose join was not registered; a [bind] all of whose key-sequences are
    registered returns without throwing, with the registry unchanged and
    one warning per key-sequence. *)
Theorem C3_one_binding_per_join st :
  reachable st ->
  NoDup (joins (bindings st))
  /\ (forall ks cb d e st' out,
        bind ks cb d e st = Ok (st', out) ->
        NoDup (joins (bindings st'))
        /\ exists added,
             bindings st' = bindings st ++ added
             /\ forall b, In b added ->
                  ~ In (keysJoin (keys b)) (joins (bindings st)))
  /\ (forall ks cb d e parsed,
        invalid_keys ks = false ->
        parseKeys ks = Ok parsed ->
        (forall seq, In seq parsed ->
           In (keysJoin seq) (joins (bindings st))) ->
        bind ks cb d e st = Ok (st, map warn_registered parsed)).
Proof.
  intros R. pose proof (reachable_unique st R) as D.
  split; [assumption|]. split.
  - intros ks cb d e st' out B.
    destruct (bind_inv _ _ _ _ _ _ _ B) as (parsed & V & P).
    rewrite (bind_returns ks cb d e st parsed V P) in B.
    pose proof (fold_unique (bind_one cb d e) (bind_one_unique cb d e)
                  parsed (bindings st, []) D) as D'.
    destruct (bind_loop cb d e parsed (bindings st) [])
      as (added & warns & F & _ & A & _).
    rewrite F in B, D'. cbn [fst snd] in B, D'.
    inversion B; subst st' out. cbn [set_bindings bindings].
    split; [assumption|]. exists added. split; [reflexivity|].
    intros b Hb. destruct (A b Hb) as (seq & _ & -> & N). exact N.
  - intros ks cb d e parsed V P All.
    rewrite (bind_returns ks cb d e st parsed V P).
    rewrite (bind_all_registered cb d e parsed (bindings st) [] All).
    cbn [fst snd app]. now rewrite set_bindings_same.
Qed.

Lemma C3_one_binding_per_join_witness :
  let st := run_ops [OpBind "ctrl+c|v" 1 "copy or paste" true] new_registry in
  reachable st
  /\ NoDup (joins (bindings st))
  /\ bind "Ctrl + V" 2 "paste" true st
     = Ok (st, [Warn "Shortcut 'ctrl+v' is already registered"]).
Proof.
  cbv zeta. set (st := run_ops _ _).
  assert (R : reachable st) by (eexists; reflexivity).
  destruct (C3_one_binding_per_join st R) as (D & _ & Dup).
  split; [exact R|]. split; [exact D|].
  apply (Dup "Ctrl + V" 2 "paste" true [[Str "ctrl"; Str "v"]]).
  - reflexivity.
  - reflexivity.
  - intros seq [<-|[]]. right. now left.
Defined.

(* ----------------------------------------------------------------- *)
(** *** The other operations return *)

Lemma unbind_returns ks st parsed :
  invalid_keys ks = false -> parseKeys ks = Ok parsed ->
  unbind ks st
  = Ok (set_bindings st (fst (fold_left unbind_one parsed (bindings st, []))),
        snd (fold_left unbind_one parsed (bindings st, []))).
Proof.
  intros V P. unfold unbind. rewrite V, P. cbn [bind_result].
  now destruct (fold_left _ parsed _).
Qed.

Lemma rebind_returns ks cb d e st parsed :
  invalid_keys ks = false -> parseKeys ks = Ok parsed ->
  rebind ks cb d e st
  = Ok (set_bindings st
          (fst (fold_left (rebind_one cb d e) parsed (bindings st, []))),
        snd (fold_left (rebind_one cb d e) parsed (bindings st, []))).
Proof.
  intros V P. unfold rebind. rewrite V, P. cbn [bind_result].
  now destruct (fold_left _ parsed _).
Qed.

Lemma toggle_returns ks e st parsed :
  parseKeys ks = Ok parsed ->
  toggle ks e st
  = Ok (set_bindings st
          (fst (fold_left (toggle_one e) parsed (bindings st, []))),
        snd (fold_left (toggle_one e) parsed (bindings st, []))).
Proof.
  intros P. unfold toggle. rewrite P. cbn [bind_result].
  now destruct (fold_left _ parsed _).
Qed.

(** C7: on valid arguments whose spec parses, [bind] returns, whatever the
    registry holds; the bindings it started from stay in place, and the
    key-sequences are handled one by one: a key-sequence whose join is
    registered when its turn comes (in the registry, or by an earlier
    key-sequence of the call) gives a warning, any other is appended, and
    the later ones are handled all the same. [unbind], [rebind], [enable]
    and [disable] return as well, whether or not the spec is
    registered. *)
Theorem C7_expansions_are_independent ks parsed st :
  invalid_keys ks = false ->
  parseKeys ks = Ok parsed ->
  (forall cb d e,
     exists added warns,
       bind ks cb d e st = Ok (set_bindings st (bindings st ++ added), warns)
       /\ List.length added + List.length warns = List.length parsed
       /\ forall i seq, nth_error parsed i = Some seq ->
            let seen := joins (bindings st)
                        ++ map keysJoin (firstn i parsed) in
            (In (keysJoin seq) seen -> In (warn_registered seq) warns)
            /\ (~ In (keysJoin seq) seen ->
                In (mkBinding seq cb d e) added))
  /\ (exists r, unbind ks st = Ok r)
  /\ (forall cb d e, exists r, rebind ks cb d e st = Ok r)
  /\ (exists r, enable ks st = Ok r)
  /\ (exists r, disable ks st = Ok r).
Proof.
  intros V P. split; [|split; [|split; [|split]]].
  - intros cb d e.
    destruct (bind_loop cb d e parsed (bindings st) [])
      as (added & warns & F & L & _ & _ & I).
    exists added, warns. rewrite (bind_returns ks cb d e st parsed V P), F.
    split; [reflexivity|]. split; assumption.
  - rewrite (unbind_returns ks st parsed V P). eauto.
  - intros cb d e. rewrite (rebind_returns ks cb d e st parsed V P). eauto.
  - unfold enable. rewrite V, (toggle_returns ks true st parsed P). eauto.
  - unfold disable. rewrite V, (toggle_returns ks false st parsed P). eauto.
Qed.

(** The example of the specification: [v] is registered, [c] is not. *)
Example bind_c_binds_v_warns :
  let st := run_ops [OpBind "ctrl+v" 1 "paste" true] new_registry in
  bind "ctrl+c|v" 2 "" true st
  = Ok (set_bindings st
          [mkBinding [Str "ctrl"; Str "v"] 1 "paste" true;
           mkBinding [Str "ctrl"; Str "c"] 2 "" true],
        [Warn "Shortcut 'ctrl+v' is already registered"]).
Proof. reflexivity. Qed.

Lemma C7_expansions_are_independent_witness :
  let st := run_ops [OpBind "ctrl+c" 1 "copy" true] new_registry in
  invalid_keys "ctrl+c|v" = false
  /\ parseKeys "ctrl+c|v" = Ok [[Str "ctrl"; Str "c"]; [Str "ctrl"; Str "v"]]
  /\ exists added warns,
       bind "ctrl+c|v" 2 "" true st
       = Ok (set_bindings st (bindings st ++ added), warns)
       /\ In (warn_registered [Str "ctrl"; Str "c"]) warns
       /\ In (mkBinding [Str "ctrl"; Str "v"] 2 "" true) added.
Proof.
  cbv zeta. set (st := run_ops _ _).
  split; [reflexivity|]. split; [reflexivity|].
  destruct (C7_expansions_are_independent "ctrl+c|v"
              [[Str "ctrl"; Str "c"]; [Str "ctrl"; Str "v"]] st
              eq_refl eq_refl) as (B & _).
  destruct (B 2 "" true) as (added & warns & E & _ & I).
  exists added, warns. split; [exact E|]. split.
  - apply (I 0 [Str "ctrl"; Str "c"] eq_refl). now left.
  - apply (I 1 [Str "ctrl"; Str "v"] eq_refl).
    intros [H|[H|[]]]; discriminate H.
Defined.

(* ================================================================= *)
(** ** Bindings with the same canonical form *)





(* ================================================================= *)
(** ** [enable] and [disable] *)

Section Toggle.

Variable e : bool.

Lemma has_join_set_enabled j b x : has_join j (set_enabled b x) = has_join j b.
Proof. reflexivity. Qed.

Lemma targeted_set_enabled parsed b x :
  targeted parsed (set_enabled b x) = targeted parsed b.
Proof. reflexivity. Qed.

Lemma registered_map_toggled j parsed bs :
  existsb (has_join j) (map (toggled e parsed) bs) = existsb (has_join j) bs.
Proof.
  induction bs as [|b bs IH]; simpl; [reflexivity|]. rewrite IH.
  unfold toggled. now destruct (targeted parsed b).
Qed.

Lemma toggle_loop : forall parsed bs out,
  fold_left (toggle_one e) parsed (bs, out)
  = (map (toggled e parsed) bs, out ++ toggle_warnings e bs parsed).
Proof.
  induction parsed as [|k parsed IH]; intros bs out; cbn [fold_left].
  - unfold toggled, toggle_warnings. cbn. rewrite app_nil_r, map_id.
    reflexivity.
  - assert (S : toggle_one e (bs, out) k
                = (map (toggled e [k]) bs,
                   out ++ toggle_warnings e bs [k])).
    { unfold toggle_one, toggle_warnings, toggled, targeted.
      cbn [flat_map existsb app]. rewrite app_nil_r.
      destruct (existsb (has_join (keysJoin k)) bs); cbn [negb].
      - rewrite app_nil_r. f_equal. apply map_ext. intros b.
        now rewrite orb_false_r.
      - f_equal. apply map_ext. intros b. now rewrite orb_false_r. }
    rewrite S, IH, map_map, <- app_assoc. f_equal.
    + apply map_ext. intros b. unfold toggled, targeted. cbn [existsb].
      rewrite orb_false_r.
      destruct (has_join (keysJoin k) b) eqn:H; cbn [orb].
      * fold (targeted parsed (set_enabled b e)).
        rewrite targeted_set_enabled.
        now destruct (targeted parsed b).
      * reflexivity.
    + f_equal. unfold toggle_warnings. cbn [flat_map].
      rewrite app_nil_r. f_equal.
      apply flat_map_ext. intros ks.
      now rewrite registered_map_toggled.
Qed.

End Toggle.

Lemma targeted_iff parsed b :
  targeted parsed b = true
  <-> exists ks, In ks parsed /\ keysJoin (keys b) = keysJoin ks.
Proof.
  unfold targeted. rewrite existsb_exists.
  split; intros (ks & I & H); exists ks; (split; [assumption|]);
    now apply has_join_iff.
Qed.

Lemma untargeted parsed bs :
  (forall ks, In ks parsed -> ~ In (keysJoin ks) (joins bs)) ->
  forall b, In b bs -> targeted parsed b = false.
Proof.
  intros N b Hb. destruct (targeted parsed b) eqn:T; [|reflexivity].
  apply targeted_iff in T. destruct T as (ks & I & E).
  exfalso. apply (N ks I). rewrite <- E. unfold joins.
  now apply in_map with (f := fun b => keysJoin (keys b)).
Qed.

Lemma toggle_warnings_in e bs parsed w :
  In w (toggle_warnings e bs parsed)
  <-> exists ks, In ks parsed /\ ~ In (keysJoin ks) (joins bs)
                 /\ w = warn_cannot e ks.
Proof.
  unfold toggle_warnings. rewrite in_flat_map. split.
  - intros (ks & I & H). exists ks. split; [assumption|].
    destruct (existsb (has_join (keysJoin ks)) bs) eqn:E; [destruct H|].
    destruct H as [<-|[]]. split; [|reflexivity].
    now apply not_registered_iff.
  - intros (ks & I & N & ->). exists ks. split; [assumption|].
    apply not_registered_iff in N. rewrite N. now left.
Qed.

Lemma toggle_warnings_all e bs parsed :
  (forall ks, In ks parsed -> ~ In (keysJoin ks) (joins bs)) ->
  toggle_warnings e bs parsed = map (warn_cannot e) parsed.
Proof.
  unfold toggle_warnings.
  induction parsed as [|k parsed IH]; intros N; cbn [flat_map map];
    [reflexivity|].
  rewrite IH by (intros ks I; apply N; now right).
  assert (R : existsb (has_join (keysJoin k)) bs = false)
    by (apply not_registered_iff, N; now left).
  now rewrite R.
Qed.

(** C9: on a valid spec that parses, [enable] (with [e = true]) and
    [disable] (with [e = false]) return; the bindings keep their number
    and their positions, and each keeps its keys, callback and
    description; its [enabled] field becomes [e] when its join is that of
    a key-sequence of the spec and is unchanged otherwise; the debug flag
    and the listeners are unchanged; every key-sequence that no binding
    has the join of gives a warning, and when that is so for all of them
    the state is unchanged. *)
Theorem C9_toggle_changes_enabled_only ks parsed e st :
  invalid_keys ks = false ->
  parseKeys ks = Ok parsed ->
  let st' := set_bindings st (map (toggled e parsed) (bindings st)) in
  let out := toggle_warnings e (bindings st) parsed in
  (if e then enable ks st else disable ks st) = Ok (st', out)
  /\ debug_flag st' = debug_flag st
  /\ keydown_listener st' = keydown_listener st
  /\ click_listener st' = click_listener st
  /\ List.length (bindings st') = List.length (bindings st)
  /\ (forall i b,
        nth_error (bindings st) i = Some b ->
        exists b',
          nth_error (bindings st') i = Some b'
          /\ keys b' = keys b
          /\ callback b' = callback b
          /\ description b' = description b
          /\ enabled b' = if targeted parsed b then e else enabled b)
  /\ (forall seq, In seq parsed ->
        ~ In (keysJoin seq) (joins (bindings st)) ->
        In (warn_cannot e seq) out)
  /\ (forall w, In w out ->
        exists seq, In seq parsed
                    /\ ~ In (keysJoin seq) (joins (bindings st))
                    /\ w = warn_cannot e seq)
  /\ ((forall seq, In seq parsed ->
         ~ In (keysJoin seq) (joins (bindings st))) ->
      st' = st /\ out = map (warn_cannot e) parsed).
Proof.
  intros V P st' out. split; [|do 3 (split; [reflexivity|])].
  - assert (T : toggle ks e st = Ok (st', out)).
    { rewrite (toggle_returns ks e st parsed P), toggle_loop. reflexivity. }
    unfold enable, disable. rewrite V. now destruct e.
  - split; [apply length_map|]. split; [|split; [|split]].
    + intros i b N. exists (toggled e parsed b).
      split; [now apply map_nth_error|].
      unfold toggled. now destruct (targeted parsed b).
    + intros seq I N. apply toggle_warnings_in. now exists seq.
    + intros w I. now apply toggle_warnings_in.
    + intros N. split; [|now apply toggle_warnings_all].
      assert (M : map (toggled e parsed) (bindings st) = bindings st).
      { rewrite <- (map_id (bindings st)) at 2. apply map_ext_in.
        intros b Hb. unfold toggled.
        now rewrite (untargeted parsed (bindings st) N b Hb). }
      unfold st'. rewrite M. apply set_bindings_same.
Qed.

(** [disable("s")] then [enable("s")] gives the binding back as it was. *)
Example disable_then_enable :
  let st := run_ops [OpBind "ctrl+s" 1 "save" true; OpBind "s" 2 "press s" true]
              new_registry in
  bindings (after (OpDisable "s") st)
  = [mkBinding [Str "ctrl"; Str "s"] 1 "save" true;
     mkBinding [Str "s"] 2 "press s" false]
  /\ after (OpEnable "s") (after (OpDisable "s") st) = st.
Proof. split; reflexivity. Qed.

Lemma C9_toggle_changes_enabled_only_witness :
  let st := run_ops [OpBind "ctrl+s" 1 "save" true; OpBind "s" 2 "press s" true]
              new_registry in
  invalid_keys "s|x" = false
  /\ parseKeys "s|x" = Ok [[Str "s"]; [Str "x"]]
  /\ disable "s|x" st
     = Ok (set_bindings st [mkBinding [Str "ctrl"; Str "s"] 1 "save" true;
                            mkBinding [Str "s"] 2 "press s" false],
           [Warn "Shortcut 'x' is not registered and cannot be disabled"]).
Proof.
  cbv zeta. set (st := run_ops _ _).
  split; [reflexivity|]. split; [reflexivity|].
  exact (proj1 (C9_toggle_changes_enabled_only "s|x" [[Str "s"]; [Str "x"]]
                  false st eq_refl eq_refl)).
Defined.

(* ================================================================= *)
(** ** [rebind] *)

Section Rebind.

Variables (cb : fn) (d : string) (e : bool).

Lemma rebind_one_hit bs out ks :
  In (keysJoin ks) (joins bs) ->
  rebind_one cb d e (bs, out) ks
  = (without (keysJoin ks) bs ++ [mkBinding ks cb d e], out).
Proof.
  intros I. apply registered_iff, without_shorter in I.
  unfold rebind_one. fold (without (keysJoin ks) bs).
  apply Nat.ltb_lt in I. now rewrite I.
Qed.

Lemma rebind_one_miss bs out ks :
  ~ In (keysJoin ks) (joins bs) ->
  rebind_one cb d e (bs, out) ks = (bs, out ++ [warn_not_registered ks]).
Proof.
  intros I. apply not_registered_iff in I.
  unfold rebind_one. fold (without (keysJoin ks) bs).
  rewrite (without_absent _ _ I), Nat.ltb_irrefl. reflexivity.
Qed.

Lemma filter_all {A} (l : list A) : filter (fun _ => true) l = l.
Proof. induction l as [|x l IH]; simpl; now rewrite ?IH. Qed.

Lemma filter_filter {A} (p q : A -> bool) l :
  filter p (filter q l) = filter (fun x => q x && p x) l.
Proof.
  induction l as [|x l IH]; simpl; [reflexivity|].
  destruct (q x); simpl; [destruct (p x)|]; now rewrite IH.
Qed.

Lemma untargeted_without k parsed bs :
  filter (fun b => negb (targeted parsed b)) (without (keysJoin k) bs)
  = filter (fun b => negb (targeted (k :: parsed) b)) bs.
Proof.
  unfold without. rewrite filter_filter. apply filter_ext. intros b.
  unfold targeted. cbn [existsb]. now rewrite negb_orb.
Qed.

(** The loop of [rebind]: the bindings that no key-sequence targets stay,
    in their order; behind them come replacements, each for a key-sequence
    whose join was registered. *)
Lemma rebind_loop : forall parsed bs out,
  exists tail warns,
    fold_left (rebind_one cb d e) parsed (bs, out)
    = (filter (fun b => negb (targeted parsed b)) bs ++ tail, out ++ warns)
    /\ (forall b, In b tail ->
          exists ks, In ks parsed /\ b = mkBinding ks cb d e
                     /\ In (keysJoin ks) (joins bs))
    /\ (forall ks, In ks parsed -> In (keysJoin ks) (joins bs) ->
          In (keysJoin ks) (joins tail))
    /\ (forall w, In w warns ->
          exists ks, In ks parsed /\ w = warn_not_registered ks
                     /\ ~ In (keysJoin ks) (joins bs))
    /\ (forall ks, In ks parsed -> ~ In (keysJoin ks) (joins bs) ->
          In (warn_not_registered ks) warns).
Proof.
  induction parsed as [|k parsed IH]; intros bs out.
  - exists [], []. cbn [fold_left targeted existsb negb].
    rewrite filter_all, !app_nil_r. repeat split; easy.
  - cbn [fold_left].
    destruct (in_dec string_dec (keysJoin k) (joins bs)) as [I|I].
    + rewrite (rebind_one_hit bs out k I).
      set (new := mkBinding k cb d e).
      assert (Same : forall x, In x (joins (without (keysJoin k) bs ++ [new]))
                               <-> In x (joins bs)).
      { intros x. rewrite joins_app, in_app_iff, joins_without.
        cbn [joins map In keys new].
        destruct (string_dec x (keysJoin k)) as [->|N]; [tauto|].
        split; [intuition congruence|]. intros H. left. now split. }
      destruct (IH (without (keysJoin k) bs ++ [new]) out)
        as (tail & warns & F & T & H & W & M).
      exists (filter (fun b => negb (targeted parsed b)) [new] ++ tail), warns.
      rewrite F, filter_app, untargeted_without, <- app_assoc.
      split; [reflexivity|]. split; [|split; [|split]].
      * intros b Hb. apply in_app_or in Hb. destruct Hb as [Hb|Hb].
        -- apply filter_In in Hb. destruct Hb as [[<-|[]] _].
           exists k. split; [now left|]. now split.
        -- destruct (T b Hb) as (ks & K1 & K2 & K3).
           exists ks. split; [now right|]. split; [assumption|].
           now apply Same.
      * intros ks [<-|Hks] J; rewrite joins_app, in_app_iff.
        -- destruct (targeted parsed new) eqn:Tn.
           ++ apply targeted_iff in Tn. destruct Tn as (ks' & K1 & K2).
              right. cbn [keys new] in K2. rewrite K2. apply H; [assumption|].
              rewrite <- K2. apply Same. exact I.
           ++ left. cbn [filter]. rewrite Tn. now left.
        -- right. apply H; [assumption|]. now apply Same.
      * intros w Hw. destruct (W w Hw) as (ks & K1 & K2 & K3).
        exists ks. split; [now right|]. split; [assumption|].
        intros J. apply K3. now apply Same.
      * intros ks [<-|Hks] J; [contradiction|].
        apply M; [assumption|]. intros J'. apply J. now apply Same.
    + rewrite (rebind_one_miss bs out k I).
      destruct (IH bs (out ++ [warn_not_registered k]))
        as (tail & warns & F & T & H & W & M).
      exists tail, (warn_not_registered k :: warns).
      rewrite F, <- app_assoc.
      assert (E : filter (fun b => negb (targeted (k :: parsed) b)) bs
                  = filter (fun b => negb (targeted parsed b)) bs).
      { rewrite <- untargeted_without.
        now rewrite (without_absent _ bs
                       (proj2 (not_registered_iff (keysJoin k) bs) I)). }
      rewrite E. split; [reflexivity|]. split; [|split; [|split]].
      * intros b Hb. destruct (T b Hb) as (ks & K1 & K2 & K3).
        exists ks. split; [now right|]. now split.
      * intros ks [<-|Hks] J; [contradiction|]. now apply H.
      * intros w [<-|Hw].
        -- exists k. split; [now left|]. now split.
        -- destruct (W w Hw) as (ks & K1 & K2 & K3).
           exists ks. split; [now right|]. now split.
      * intros ks [<-|Hks] J; [now left|]. right. now apply M.
Qed.

Lemma rebind_none_registered : forall parsed bs out,
  (forall ks, In ks parsed -> ~ In (keysJoin ks) (joins bs)) ->
  fold_left (rebind_one cb d e) parsed (bs, out)
  = (bs, out ++ map warn_not_registered parsed).
Proof.
  induction parsed as [|k parsed IH]; intros bs out N; cbn [fold_left map].
  - now rewrite app_nil_r.
  - rewrite rebind_one_miss by (apply N; now left).
    rewrite IH by (intros ks I; apply N; now right).
    now rewrite <- app_assoc.
Qed.

Lemma without_middle j before b rest :
  keysJoin (keys b) = j ->
  ~ In j (joins (before ++ rest)) ->
  without j (before ++ b :: rest) = before ++ rest.
Proof.
  intros E N. unfold without. rewrite filter_app. cbn [filter].
  apply has_join_iff in E. rewrite E. cbn [negb].
  rewrite <- filter_app. apply without_absent.
  now apply not_registered_iff.
Qed.

End Rebind.

(** C10: on valid arguments whose spec parses, [rebind] returns; the
    bindings whose join is that of no key-sequence of the spec stay, in
    their relative order, at the front; behind them, at the end of the
    list, come the replacements, each made of a key-sequence whose join
    was registered and of the new callback, description and [enabled],
    and every key-sequence whose join was registered has one; a
    key-sequence whose join was not registered gives a warning. With one
    key-sequence, matched by the binding [b] alone, the list becomes the
    other bindings in their order followed by the replacement; when no
    key-sequence is registered the registry is unchanged. *)
Theorem C10_rebind_moves_to_end ks parsed cb d e st :
  invalid_keys ks = false ->
  parseKeys ks = Ok parsed ->
  (exists tail warns,
     rebind ks cb d e st
     = Ok (set_bindings st
             (filter (fun b => negb (targeted parsed b)) (bindings st)
              ++ tail),
           warns)
     /\ (forall b, In b tail ->
           exists seq, In seq parsed /\ b = mkBinding seq cb d e
                       /\ In (keysJoin seq) (joins (bindings st)))
     /\ (forall seq, In seq parsed ->
           In (keysJoin seq) (joins (bindings st)) ->
           In (keysJoin seq) (joins tail))
     /\ (forall seq, In seq parsed ->
           ~ In (keysJoin seq) (joins (bindings st)) ->
           In (warn_not_registered seq) warns))
  /\ (forall seq before b rest,
        parsed = [seq] ->
        bindings st = before ++ b :: rest ->
        keysJoin (keys b) = keysJoin seq ->
        ~ In (keysJoin seq) (joins (before ++ rest)) ->
        rebind ks cb d e st
        = Ok (set_bindings st (before ++ rest ++ [mkBinding seq cb d e]), []))
  /\ ((forall seq, In seq parsed ->
         ~ In (keysJoin seq) (joins (bindings st))) ->
      rebind ks cb d e st = Ok (st, map warn_not_registered parsed)).
Proof.
  intros V P. rewrite (rebind_returns ks cb d e st parsed V P).
  split; [|split].
  - destruct (rebind_loop cb d e parsed (bindings st) [])
      as (tail & warns & F & T & H & _ & M).
    exists tail, warns. rewrite F. cbn [fst snd app]. auto.
  - intros seq before b rest -> B E N.
    cbn [fold_left]. rewrite rebind_one_hit.
    + rewrite B, (without_middle _ before b rest E N). cbn [fst snd].
      now rewrite <- app_assoc.
    + rewrite B, joins_app, in_app_iff. right. left. exact E.
  - intros N. rewrite (rebind_none_registered cb d e parsed _ [] N).
    cbn [fst snd app]. now rewrite set_bindings_same.
Qed.

Lemma C10_rebind_moves_to_end_witness :
  let st := run_ops [OpBind "s" 1 "first" true; OpBind "ctrl+s" 2 "second" true;
                     OpBind "x" 3 "third" false] new_registry in
  invalid_keys "S" = false
  /\ parseKeys "S" = Ok [[Str "s"]]
  /\ rebind "S" 9 "again" true st
     = Ok (set_bindings st
             [mkBinding [Str "ctrl"; Str "s"] 2 "second" true;
              mkBinding [Str "x"] 3 "third" false;
              mkBinding [Str "s"] 9 "again" true],
           []).
Proof.
  cbv zeta. set (st := run_ops _ _).
  split; [reflexivity|]. split; [reflexivity|].
  destruct (C10_rebind_moves_to_end "S" [[Str "s"]] 9 "again" true st
              eq_refl eq_refl) as (_ & One & _).
  apply (One [Str "s"] [] (mkBinding [Str "s"] 1 "first" true)
           [mkBinding [Str "ctrl"; Str "s"] 2 "second" true;
            mkBinding [Str "x"] 3 "third" false]).
  - reflexivity.
  - reflexivity.
  - reflexivity.
  - intros [H|[H|[]]]; discriminate H.
Defined.

(** After [rebind], a binding registered later and matching the same
    event takes over: the rebound shortcut is matched last. *)
Example rebind_loses_priority :
  let st := run_ops [OpBind "ctrl+s" 1 "" true; OpBind "s+ctrl" 2 "" true]
              new_registry in
  let ev := KeyboardEvent ctrl_only "s" in
  invoked (snd (handleKeydown inert ev st)) = [1]
  /\ invoked (snd (handleKeydown inert ev
                     (after (OpRebind "ctrl+s" 3 "" true) st))) = [2].
Proof. split; reflexivity. Qed.

(* ================================================================= *)
(** ** Further properties: strings and the parser *)

Lemma lower_ascii_idem c : JS.lower_ascii (JS.lower_ascii c) = JS.lower_ascii c.
Proof. destruct c as [[] [] [] [] [] [] [] []]; reflexivity. Qed.

Lemma toLowerCase_idem s : JS.toLowerCase (JS.toLowerCase s) = JS.toLowerCase s.
Proof.
  induction s as [|c s IH]; simpl; [reflexivity|].
  now rewrite lower_ascii_idem, IH.
Qed.

Lemma is_white_lower c : JS.is_white (JS.lower_ascii c) = JS.is_white c.
Proof. destruct c as [[] [] [] [] [] [] [] []]; reflexivity. Qed.

Lemma all_white_lower s : all_white (JS.toLowerCase s) = all_white s.
Proof.
  induction s as [|c s IH]; simpl; [reflexivity|].
  now rewrite is_white_lower, IH.
Qed.

Lemma trimStart_white s : all_white s = true -> JS.trimStart s = EmptyString.
Proof.
  induction s as [|c s IH]; simpl; [reflexivity|].
  intros H. apply andb_true_iff in H. destruct H as [-> H]. now apply IH.
Qed.

Lemma trimStart_not_white s :
  all_white s = false ->
  exists c r, JS.trimStart s = String c r /\ JS.is_white c = false.
Proof.
  induction s as [|c s IH]; simpl; [discriminate|].
  destruct (JS.is_white c) eqn:W; simpl; intros H.
  - now apply IH.
  - now exists c, s.
Qed.

(** The guard of the public methods rejects exactly the strings made of
    white space. *)
Lemma invalid_keys_all_white s : invalid_keys s = all_white s.
Proof.
  unfold invalid_keys, JS.trim. destruct (all_white s) eqn:W.
  - now rewrite (trimStart_white s W).
  - destruct (trimStart_not_white s W) as (c & r & -> & N).
    simpl. now rewrite N.
Qed.

(** Every method that takes a spec throws the "cannot be empty" error on
    a spec made of white space only, whatever the registry and the other
    arguments, and leaves the registry as it was; on any other spec none
    of them throws that error. *)
Theorem blank_spec_is_rejected ks :
  (all_white ks = true ->
   forall cb d e st,
     bind ks cb d e st = Throw EmptyKeys
     /\ unbind ks st = Throw EmptyKeys
     /\ rebind ks cb d e st = Throw EmptyKeys
     /\ enable ks st = Throw EmptyKeys
     /\ disable ks st = Throw EmptyKeys
     /\ after (OpBind ks cb d e) st = st
     /\ after (OpUnbind ks) st = st
     /\ after (OpRebind ks cb d e) st = st
     /\ after (OpEnable ks) st = st
     /\ after (OpDisable ks) st = st)
  /\ (all_white ks = false ->
      forall cb d e st,
        bind ks cb d e st <> Throw EmptyKeys
        /\ unbind ks st <> Throw EmptyKeys
        /\ rebind ks cb d e st <> Throw EmptyKeys
        /\ enable ks st <> Throw EmptyKeys
        /\ disable ks st <> Throw EmptyKeys).
Proof.
  split; intros W cb d e st; rewrite <- invalid_keys_all_white in W.
  - unfold after, apply_op, bind, unbind, rebind, enable, disable.
    rewrite W. repeat split; reflexivity.
  - assert (P : forall r, parseKeys ks = Throw r -> r <> EmptyKeys).
    { intros r. rewrite parseKeys_eq. cbv zeta.
      destruct (existsb _ _); [|discriminate].
      destruct (forallb _ _); [|intros H; inversion H; discriminate].
      destruct (expansions _ _); intros H; inversion H; discriminate. }
    unfold bind, unbind, rebind, enable, disable, toggle. rewrite W.
    destruct (parseKeys ks) as [parsed|r] eqn:E; cbn [bind_result].
    + repeat split; try (now destruct (fold_left _ parsed _)).
    + specialize (P r eq_refl).
      repeat split; intros H; inversion H; contradiction.
Qed.

Lemma blank_spec_is_rejected_witness :
  all_white "   " = true
  /\ bind "   " 1 "" true new_registry = Throw EmptyKeys
  /\ all_white " s " = false
  /\ enable " s " new_registry <> Throw EmptyKeys.
Proof.
  destruct (blank_spec_is_rejected "   ") as [Blank _].
  destruct (blank_spec_is_rejected " s ") as [_ Other].
  split; [reflexivity|]. split.
  - exact (proj1 (Blank eq_refl 1 "" true new_registry)).
  - split; [reflexivity|].
    exact (proj1 (proj2 (proj2 (proj2 (Other eq_refl 1 "" true new_registry))))).
Defined.

(** A spec is read without regard to case: the parser and every method
    that takes a spec give the same result on the lower-cased spec. *)
Theorem spec_is_case_insensitive ks :
  parseKeys (JS.toLowerCase ks) = parseKeys ks
  /\ forall cb d e st,
       bind (JS.toLowerCase ks) cb d e st = bind ks cb d e st
       /\ unbind (JS.toLowerCase ks) st = unbind ks st
       /\ rebind (JS.toLowerCase ks) cb d e st = rebind ks cb d e st
       /\ enable (JS.toLowerCase ks) st = enable ks st
       /\ disable (JS.toLowerCase ks) st = disable ks st.
Proof.
  assert (P : parseKeys (JS.toLowerCase ks) = parseKeys ks).
  { unfold parseKeys, keyParts. now rewrite toLowerCase_idem. }
  assert (V : invalid_keys (JS.toLowerCase ks) = invalid_keys ks).
  { now rewrite !invalid_keys_all_white, all_white_lower. }
  split; [exact P|]. intros cb d e st.
  unfold bind, unbind, rebind, enable, disable, toggle.
  now rewrite P, V.
Qed.

Lemma keyParts_not_nil ks : keyParts ks <> [].
Proof.
  unfold keyParts. intros H. apply map_eq_nil in H.
  exact (split_not_nil _ _ H).
Qed.

Lemma no_group_filter parts :
  existsb is_group parts = false ->
  filter (fun p => negb (is_group p)) parts = parts.
Proof.
  induction parts as [|p parts IH]; simpl; [reflexivity|].
  intros H. apply orb_false_iff in H. destruct H as [-> H].
  simpl. now rewrite IH.
Qed.

(** What the parser returns and how it fails: a result is a non-empty list
    of non-empty key-sequences; with an alternation, each is the fixed
    prefix followed by one string that is not blank; a spec without [|]
    always parses; a failure is the invalid-format error, or the "not a
    function" error exactly when an alternative resolved to an inherited
    member. *)
Theorem parseKeys_shape ks :
  (forall r, parseKeys ks = Ok r ->
     r <> []
     /\ forall seq, In seq r ->
          seq <> []
          /\ (existsb is_group (keyParts ks) = true ->
              exists k, seq = fixed_prefix (keyParts ks) ++ [Str k]
                        /\ JS.trim k <> EmptyString))
  /\ (existsb is_group (keyParts ks) = false ->
      parseKeys ks = Ok [map alias_or (keyParts ks)])
  /\ (forall x, parseKeys ks = Throw x ->
        existsb is_group (keyParts ks) = true
        /\ (x = InvalidFormat \/ x = NotAFunction)
        /\ (x = NotAFunction
            <-> forallb is_string (all_alternatives (keyParts ks)) = false)).
Proof.
  rewrite parseKeys_eq. cbv zeta.
  destruct (existsb is_group (keyParts ks)) eqn:G.
  - destruct (forallb is_string (all_alternatives (keyParts ks))) eqn:S.
    + assert (Sh : forall seq,
                In seq (expansions (fixed_prefix (keyParts ks))
                          (all_alternatives (keyParts ks))) ->
                exists k, seq = fixed_prefix (keyParts ks) ++ [Str k]
                          /\ JS.trim k <> EmptyString).
      { intros seq I. unfold expansions in I. apply in_map_iff in I.
        destruct I as (t & <- & I). apply filter_In in I.
        destruct I as [I N]. rewrite forallb_forall in S.
        specialize (S t I). destruct t as [k|n]; [|discriminate].
        exists k. split; [reflexivity|]. simpl in N.
        now destruct (JS.trim k). }
      destruct (expansions _ _) as [|x xs] eqn:E.
      * split; [discriminate|]. split; [discriminate|].
        intros x H. inversion H; subst x. split; [reflexivity|].
        split; [now left|]. split; discriminate.
      * split; [|split; discriminate].
        intros r H. inversion H; subst r. split; [discriminate|].
        intros seq I. destruct (Sh seq I) as (k & -> & N).
        split; [now destruct (fixed_prefix _)|]. intros _. now exists k.
    + split; [discriminate|]. split; [discriminate|].
      intros x H. inversion H; subst x. split; [reflexivity|].
      split; [now right|]. now split.
  - split; [|split; [|discriminate]].
    + intros r H. inversion H; subst r. split; [discriminate|].
      intros seq [<-|[]]. split; [|discriminate].
      unfold fixed_prefix. rewrite (no_group_filter _ G).
      pose proof (keyParts_not_nil ks). now destruct (keyParts ks).
    + intros _. unfold fixed_prefix. now rewrite (no_group_filter _ G).
Qed.

Lemma parseKeys_shape_witness :
  parseKeys "ctrl+space|a|b" = Ok [[Str "ctrl"; Str "a"]; [Str "ctrl"; Str "b"]]
  /\ In [Str "ctrl"; Str "b"] [[Str "ctrl"; Str "a"]; [Str "ctrl"; Str "b"]]
  /\ existsb is_group (keyParts "ctrl+space|a|b") = true
  /\ exists k, [Str "ctrl"; Str "b"]
               = fixed_prefix (keyParts "ctrl+space|a|b") ++ [Str k]
               /\ JS.trim k <> EmptyString.
Proof.
  destruct (parseKeys_shape "ctrl+space|a|b") as (Shape & _).
  destruct (Shape _ eq_refl) as (_ & Each).
  split; [reflexivity|]. split; [right; now left|]. split; [reflexivity|].
  apply (Each [Str "ctrl"; Str "b"]); [right; now left | reflexivity].
Defined.

Lemma parseKeys_string_alternatives_witness :
  forallb is_string (all_alternatives (keyParts "ctrl+c| |v")) = true
  /\ parseKeys "ctrl+c| |v"
     = Ok [[Str "ctrl"; Str "c"]; [Str "ctrl"; Str "v"]]
  /\ forallb is_string (all_alternatives (keyParts "ctrl+ | ")) = true
  /\ parseKeys "ctrl+ | " = Throw InvalidFormat.
Proof.
  destruct (parseKeys_string_alternatives "ctrl+c| |v" eq_refl) as [G _].
  destruct (parseKeys_string_alternatives "ctrl+ | " eq_refl) as [B _].
  split; [reflexivity|]. split.
  - apply (proj1 (G eq_refl)). discriminate.
  - split; [reflexivity|]. now apply (proj2 (B eq_refl)).
Defined.

Lemma join_cons sep x y l :
  JS.join sep (x :: y :: l) = (x ++ sep ++ JS.join sep (y :: l))%string.
Proof. reflexivity. Qed.

Lemma join_split sep s :
  JS.join (String sep EmptyString) (JS.split sep s) = s.
Proof.
  induction s as [|c s IH]; [reflexivity|]. cbn [JS.split].
  destruct (JS.split sep s) as [|h t] eqn:S;
    [now apply split_not_nil in S|].
  destruct (Ascii.eqb c sep) eqn:E.
  - apply Ascii.eqb_eq in E. subst c.
    rewrite join_cons, IH. reflexivity.
  - destruct t as [|h' t].
    + cbn [JS.join] in *. now rewrite IH.
    + rewrite join_cons in *. rewrite <- IH. reflexivity.
Qed.

(** A spec made of plain parts (no alternation, no surrounding white
    space, no alias that renames) is one key-sequence, and the join string
    under which it is registered is the lower-cased spec itself. *)
Theorem plain_spec_join ks :
  forallb plain_part (JS.split plus (JS.toLowerCase ks)) = true ->
  parseKeys ks = Ok [map Str (JS.split plus (JS.toLowerCase ks))]
  /\ keysJoin (map Str (JS.split plus (JS.toLowerCase ks)))
     = JS.toLowerCase ks.
Proof.
  intros Pl. rewrite forallb_forall in Pl.
  set (parts := JS.split plus (JS.toLowerCase ks)) in *.
  assert (T : keyParts ks = parts).
  { unfold keyParts. fold parts. rewrite <- (map_id parts) at 2.
    apply map_ext_in. intros p I. specialize (Pl p I).
    unfold plain_part in Pl. rewrite !andb_true_iff in Pl.
    now apply String.eqb_eq. }
  assert (G : existsb is_group parts = false).
  { apply not_true_is_false. intros H. apply existsb_exists in H.
    destruct H as (p & I & H). specialize (Pl p I).
    unfold plain_part in Pl. rewrite !andb_true_iff in Pl.
    rewrite H in Pl. now destruct Pl as [[_ F] _]. }
  assert (A : map alias_or parts = map Str parts).
  { apply map_ext_in. intros p I. specialize (Pl p I).
    unfold plain_part in Pl. rewrite !andb_true_iff in Pl.
    destruct Pl as [_ Pl]. destruct (alias_or p) as [q|n]; [|discriminate].
    apply String.eqb_eq in Pl. now subst q. }
  split.
  - rewrite parseKeys_eq. cbv zeta. rewrite T, G.
    unfold fixed_prefix. now rewrite (no_group_filter _ G), A.
  - unfold keysJoin, join_keys. rewrite map_map. cbn [ToString].
    rewrite map_id. apply (join_split plus).
Qed.

Lemma plain_spec_join_witness :
  forallb plain_part (JS.split plus (JS.toLowerCase "Ctrl+Shift+S")) = true
  /\ parseKeys "Ctrl+Shift+S" = Ok [[Str "ctrl"; Str "shift"; Str "s"]]
  /\ keysJoin [Str "ctrl"; Str "shift"; Str "s"] = "ctrl+shift+s".
Proof.
  split; [reflexivity|]. exact (plain_spec_join "Ctrl+Shift+S" eq_refl).
Defined.

(* ================================================================= *)
(** ** Further properties: [unbind] *)

Lemma unbind_one_eq bs out k :
  unbind_one (bs, out) k
  = (without (keysJoin k) bs,
     out ++ (if existsb (has_join (keysJoin k)) bs then []
             else [warn_not_registered k])).
Proof.
  unfold unbind_one. fold (without (keysJoin k) bs).
  destruct (existsb (has_join (keysJoin k)) bs) eqn:R.
  - pose proof (without_shorter _ _ R) as L.
    assert (E : (List.length (without (keysJoin k) bs) =? List.length bs)%nat
                = false) by (apply Nat.eqb_neq; lia).
    rewrite E. now rewrite app_nil_r.
  - rewrite (without_absent _ _ R), Nat.eqb_refl. reflexivity.
Qed.

Lemma joins_untargeted parsed bs seq :
  In seq parsed ->
  ~ In (keysJoin seq)
      (joins (filter (fun b => negb (targeted parsed b)) bs)).
Proof.
  intros I J. unfold joins in J. apply in_map_iff in J.
  destruct J as (b & E & F). apply filter_In in F. destruct F as [_ F].
  assert (T : targeted parsed b = true)
    by (apply targeted_iff; now exists seq).
  now rewrite T in F.
Qed.

(** The loop of [unbind]. *)
Lemma unbind_loop : forall parsed bs out,
  exists warns,
    fold_left unbind_one parsed (bs, out)
    = (filter (fun b => negb (targeted parsed b)) bs, out ++ warns)
    /\ (forall w, In w warns ->
          exists seq, In seq parsed /\ w = warn_not_registered seq)
    /\ (forall seq, In seq parsed -> ~ In (keysJoin seq) (joins bs) ->
          In (warn_not_registered seq) warns)
    /\ (NoDup (map keysJoin parsed) ->
        (forall seq, In seq parsed -> In (keysJoin seq) (joins bs)) ->
        warns = []).
Proof.
  induction parsed as [|k parsed IH]; intros bs out.
  - exists []. cbn [fold_left targeted existsb negb].
    rewrite filter_all, app_nil_r. repeat split; easy.
  - cbn [fold_left]. rewrite unbind_one_eq.
    destruct (IH (without (keysJoin k) bs)
                (out ++ (if existsb (has_join (keysJoin k)) bs then []
                         else [warn_not_registered k])))
      as (warns & F & W & M & Q).
    exists ((if existsb (has_join (keysJoin k)) bs then []
             else [warn_not_registered k]) ++ warns).
    rewrite F, untargeted_without, <- app_assoc.
    split; [reflexivity|]. split; [|split].
    + intros w Hw. apply in_app_or in Hw. destruct Hw as [Hw|Hw].
      * destruct (existsb _ bs); [destruct Hw|].
        destruct Hw as [<-|[]]. exists k. split; [now left|reflexivity].
      * destruct (W w Hw) as (seq & I & E). exists seq.
        split; [now right|assumption].
    + intros seq [<-|I] N; apply in_or_app.
      * left. apply not_registered_iff in N. rewrite N. now left.
      * right. apply M; [assumption|]. rewrite joins_without. tauto.
    + intros D R. cbn [map] in D. inversion D as [|? ? N D']; subst.
      assert (Rk : existsb (has_join (keysJoin k)) bs = true)
        by (apply registered_iff, R; now left).
      rewrite Rk. cbn [app]. apply Q; [assumption|].
      intros seq I. rewrite joins_without.
      split; [apply R; now right|].
      intros E. apply N. rewrite <- E. now apply in_map.
Qed.

Lemma unbind_none_registered : forall parsed bs out,
  (forall seq, In seq parsed -> ~ In (keysJoin seq) (joins bs)) ->
  fold_left unbind_one parsed (bs, out)
  = (bs, out ++ map warn_not_registered parsed).
Proof.
  induction parsed as [|k parsed IH]; intros bs out N; cbn [fold_left map].
  - now rewrite app_nil_r.
  - rewrite unbind_one_eq.
    assert (R : existsb (has_join (keysJoin k)) bs = false)
      by (apply not_registered_iff, N; now left).
    rewrite R, (without_absent _ _ R).
    rewrite IH by (intros seq I; apply N; now right).
    now rewrite <- app_assoc.
Qed.

(** [unbind] on a valid spec that parses: the registry keeps, in their
    order, exactly the bindings whose join is that of no key-sequence of
    the spec; afterwards no join of the spec is registered; every
    key-sequence that was not registered gives a warning, every warning is
    for a key-sequence of the spec, and there is none when the
    key-sequences have distinct joins that were all registered. *)
Theorem unbind_removes_targeted ks parsed st :
  invalid_keys ks = false ->
  parseKeys ks = Ok parsed ->
  exists warns,
    unbind ks st
    = Ok (set_bindings st
            (filter (fun b => negb (targeted parsed b)) (bindings st)),
          warns)
    /\ (forall seq, In seq parsed ->
          ~ In (keysJoin seq)
              (joins (filter (fun b => negb (targeted parsed b))
                        (bindings st))))
    /\ (forall w, In w warns ->
          exists seq, In seq parsed /\ w = warn_not_registered seq)
    /\ (forall seq, In seq parsed ->
          ~ In (keysJoin seq) (joins (bindings st)) ->
          In (warn_not_registered seq) warns)
    /\ (NoDup (map keysJoin parsed) ->
        (forall seq, In seq parsed ->
           In (keysJoin seq) (joins (bindings st))) ->
        warns = []).
Proof.
  intros V P. rewrite (unbind_returns ks st parsed V P).
  destruct (unbind_loop parsed (bindings st) []) as (warns & F & W & M & Q).
  exists warns. rewrite F. cbn [fst snd app].
  split; [reflexivity|]. split; [|now split].
  intros seq I. now apply joins_untargeted.
Qed.

Lemma unbind_removes_targeted_witness :
  let st := run_ops [OpBind "a" 1 "" true; OpBind "ctrl+c|v" 2 "" true;
                     OpBind "b" 3 "" false] new_registry in
  invalid_keys "ctrl+v|x" = false
  /\ parseKeys "ctrl+v|x" = Ok [[Str "ctrl"; Str "v"]; [Str "ctrl"; Str "x"]]
  /\ exists warns,
       unbind "ctrl+v|x" st
       = Ok (set_bindings st [mkBinding [Str "a"] 1 "" true;
                              mkBinding [Str "ctrl"; Str "c"] 2 "" true;
                              mkBinding [Str "b"] 3 "" false],
             warns)
       /\ In (warn_not_registered [Str "ctrl"; Str "x"]) warns.
Proof.
  cbv zeta. set (st := run_ops _ _).
  split; [reflexivity|]. split; [reflexivity|].
  destruct (unbind_removes_targeted "ctrl+v|x"
              [[Str "ctrl"; Str "v"]; [Str "ctrl"; Str "x"]] st
              eq_refl eq_refl) as (warns & U & _ & _ & M & _).
  exists warns. split; [exact U|].
  apply M; [right; now left|].
  intros [H|[H|[H|[H|[]]]]]; discriminate H.
Defined.

(** [unbind] twice: the second call finds nothing to remove, leaves the
    registry as the first call left it and warns once per
    key-sequence. *)
Theorem unbind_twice ks parsed st :
  invalid_keys ks = false ->
  parseKeys ks = Ok parsed ->
  exists st1 warns,
    unbind ks st = Ok (st1, warns)
    /\ unbind ks st1 = Ok (st1, map warn_not_registered parsed).
Proof.
  intros V P.
  destruct (unbind_loop parsed (bindings st) []) as (warns & F & _).
  exists (set_bindings st
            (filter (fun b => negb (targeted parsed b)) (bindings st))),
         warns.
  rewrite !(unbind_returns ks _ parsed V P), F. cbn [fst snd app].
  split; [reflexivity|]. cbn [set_bindings bindings].
  rewrite unbind_none_registered
    by (intros seq I; now apply joins_untargeted).
  reflexivity.
Qed.

Lemma unbind_twice_witness :
  let st := run_ops [OpBind "s" 1 "" true] new_registry in
  invalid_keys "s" = false
  /\ parseKeys "s" = Ok [[Str "s"]]
  /\ exists st1 warns,
       unbind "s" st = Ok (st1, warns)
       /\ unbind "s" st1 = Ok (st1, [Warn "Shortcut 's' is not registered"]).
Proof.
  cbv zeta. split; [reflexivity|]. split; [reflexivity|].
  exact (unbind_twice "s" [[Str "s"]] _ eq_refl eq_refl).
Defined.

(* ================================================================= *)
(** ** Further properties: [bind] with [unbind], and [bind] twice *)

Lemma set_bindings_twice st bs cs :
  set_bindings (set_bindings st bs) cs = set_bindings st cs.
Proof. reflexivity. Qed.

Lemma filter_none {A} (p : A -> bool) l :
  (forall x, In x l -> p x = false) -> filter p l = [].
Proof.
  induction l as [|x l IH]; intros H; simpl; [reflexivity|].
  rewrite (H x (or_introl eq_refl)). apply IH. intros y I. apply H. now right.
Qed.

Lemma filter_every {A} (p : A -> bool) l :
  (forall x, In x l -> p x = true) -> filter p l = l.
Proof.
  induction l as [|x l IH]; intros H; simpl; [reflexivity|].
  rewrite (H x (or_introl eq_refl)). f_equal. apply IH.
  intros y I. apply H. now right.
Qed.

(** [bind] then [unbind] of a spec none of whose key-sequences was
    registered gives the registry back as it was. *)
Theorem bind_then_unbind ks parsed cb d e st :
  invalid_keys ks = false ->
  parseKeys ks = Ok parsed ->
  (forall seq, In seq parsed -> ~ In (keysJoin seq) (joins (bindings st))) ->
  exists st1 out1 out2,
    bind ks cb d e st = Ok (st1, out1)
    /\ unbind ks st1 = Ok (st, out2).
Proof.
  intros V P N.
  destruct (bind_loop cb d e parsed (bindings st) [])
    as (added & warns & F & _ & A & _).
  destruct (unbind_loop parsed (bindings st ++ added) []) as (out2 & U & _).
  exists (set_bindings st (bindings st ++ added)), warns, out2.
  rewrite (bind_returns ks cb d e st parsed V P), F. cbn [fst snd app].
  split; [reflexivity|].
  rewrite (unbind_returns ks _ parsed V P). cbn [set_bindings bindings].
  rewrite U. cbn [fst snd app]. rewrite filter_app.
  rewrite (filter_every _ (bindings st)), (filter_none _ added), app_nil_r.
  - now rewrite set_bindings_twice, set_bindings_same.
  - intros b I. destruct (A b I) as (seq & S & -> & _).
    assert (T : targeted parsed (mkBinding seq cb d e) = true)
      by (apply targeted_iff; now exists seq).
    now rewrite T.
  - intros b I. now rewrite (untargeted parsed (bindings st) N b I).
Qed.

Lemma bind_then_unbind_witness :
  let st := run_ops [OpBind "s" 1 "" true] new_registry in
  invalid_keys "ctrl+c|v" = false
  /\ parseKeys "ctrl+c|v" = Ok [[Str "ctrl"; Str "c"]; [Str "ctrl"; Str "v"]]
  /\ exists st1 out1 out2,
       bind "ctrl+c|v" 2 "" true st = Ok (st1, out1)
       /\ unbind "ctrl+c|v" st1 = Ok (st, out2).
Proof.
  cbv zeta. split; [reflexivity|]. split; [reflexivity|].
  apply (bind_then_unbind "ctrl+c|v"
           [[Str "ctrl"; Str "c"]; [Str "ctrl"; Str "v"]]);
    try reflexivity.
  intros seq [<-|[<-|[]]] [H|[]]; discriminate H.
Defined.

Lemma bind_registers_all cb d e : forall parsed bs out,
  (forall j, In j (joins bs) ->
     In j (joins (fst (fold_left (bind_one cb d e) parsed (bs, out)))))
  /\ (forall seq, In seq parsed ->
        In (keysJoin seq)
          (joins (fst (fold_left (bind_one cb d e) parsed (bs, out))))).
Proof.
  induction parsed as [|k parsed IH]; intros bs out; cbn [fold_left].
  - split; [trivial|intros seq []].
  - destruct (in_dec string_dec (keysJoin k) (joins bs)) as [I|I].
    + rewrite (bind_one_registered cb d e bs out k I).
      destruct (IH bs (out ++ [warn_registered k])) as [Mono All].
      split; [assumption|]. intros seq [<-|S]; auto.
    + rewrite (bind_one_fresh cb d e bs out k I).
      destruct (IH (bs ++ [mkBinding k cb d e]) out) as [Mono All].
      split.
      * intros j J. apply Mono. rewrite joins_app, in_app_iff. now left.
      * intros seq [<-|S]; auto.
        apply Mono. rewrite joins_app, in_app_iff. right. now left.
Qed.

(** [bind] twice: after a [bind] every key-sequence of the spec is
    registered, so a second [bind] of the spec, with whatever callback,
    description and flag, changes nothing and warns once per
    key-sequence. *)
Theorem bind_twice ks parsed cb d e st :
  invalid_keys ks = false ->
  parseKeys ks = Ok parsed ->
  exists st1 out1,
    bind ks cb d e st = Ok (st1, out1)
    /\ (forall seq, In seq parsed ->
          In (keysJoin seq) (joins (bindings st1)))
    /\ forall cb' d' e',
         bind ks cb' d' e' st1 = Ok (st1, map warn_registered parsed).
Proof.
  intros V P.
  destruct (bind_registers_all cb d e parsed (bindings st) []) as [_ All].
  rewrite (bind_returns ks cb d e st parsed V P).
  set (r := fold_left (bind_one cb d e) parsed (bindings st, [])) in *.
  exists (set_bindings st (fst r)), (snd r).
  split; [reflexivity|]. split; [exact All|].
  intros cb' d' e'. rewrite (bind_returns ks cb' d' e' _ parsed V P).
  cbn [set_bindings bindings].
  rewrite (bind_all_registered cb' d' e' parsed (fst r) [] All).
  reflexivity.
Qed.

Lemma bind_twice_witness :
  invalid_keys "ctrl+c|v" = false
  /\ parseKeys "ctrl+c|v" = Ok [[Str "ctrl"; Str "c"]; [Str "ctrl"; Str "v"]]
  /\ exists st1 out1,
       bind "ctrl+c|v" 1 "" true new_registry = Ok (st1, out1)
       /\ bind "ctrl+c|v" 2 "other" false st1
          = Ok (st1, [Warn "Shortcut 'ctrl+c' is already registered";
                      Warn "Shortcut 'ctrl+v' is already registered"]).
Proof.
  split; [reflexivity|]. split; [reflexivity|].
  destruct (bind_twice "ctrl+c|v"
              [[Str "ctrl"; Str "c"]; [Str "ctrl"; Str "v"]]
              1 "" true new_registry eq_refl eq_refl)
    as (st1 & out1 & B & _ & Again).
  exists st1, out1. split; [exact B|]. exact (Again 2 "other" false).
Defined.

(* ================================================================= *)
(** ** Further properties: [enable] and [disable] composed *)

Lemma after_toggle ks parsed (e : bool) st :
  invalid_keys ks = false ->
  parseKeys ks = Ok parsed ->
  after (if e then OpEnable ks else OpDisable ks) st
  = set_bindings st (map (toggled e parsed) (bindings st)).
Proof.
  intros V P.
  assert (T : toggle ks e st
              = Ok (set_bindings st (map (toggled e parsed) (bindings st)),
                    toggle_warnings e (bindings st) parsed)).
  { rewrite (toggle_returns ks e st parsed P), toggle_loop. reflexivity. }
  unfold after. destruct e; cbn [apply_op]; unfold enable, disable;
    now rewrite V, T.
Qed.

Lemma bindings_set_bindings st bs : bindings (set_bindings st bs) = bs.
Proof. reflexivity. Qed.

Lemma toggled_twice e1 e2 parsed b :
  toggled e2 parsed (toggled e1 parsed b) = toggled e2 parsed b.
Proof.
  unfold toggled. destruct (targeted parsed b) eqn:T.
  - rewrite targeted_set_enabled, T. reflexivity.
  - now rewrite T.
Qed.

Lemma toggled_same e parsed b :
  (targeted parsed b = true -> enabled b = e) -> toggled e parsed b = b.
Proof.
  unfold toggled. destruct (targeted parsed b); [|reflexivity].
  intros H. specialize (H eq_refl). subst e. now destruct b.
Qed.

Lemma map_fixed {A} (f : A -> A) l :
  map f l = l -> forall x, In x l -> f x = x.
Proof.
  induction l as [|y l IH]; intros E x I; [destruct I|].
  cbn [map] in E. injection E as Ey El.
  destruct I as [<-|I]; [exact Ey | now apply IH].
Qed.

(** Of two successive [enable]/[disable] calls on one spec the last one
    decides: the state is the one the last call alone would give. In
    particular each is idempotent, and [disable] followed by [enable]
    gives the registry back if and only if the bindings of the spec were
    enabled (and [enable] followed by [disable], if and only if they were
    disabled). *)
Theorem toggle_last_wins ks parsed st :
  invalid_keys ks = false ->
  parseKeys ks = Ok parsed ->
  (forall e1 e2 : bool,
     after (if e2 then OpEnable ks else OpDisable ks)
       (after (if e1 then OpEnable ks else OpDisable ks) st)
     = after (if e2 then OpEnable ks else OpDisable ks) st)
  /\ (forall e : bool,
        (forall b, In b (bindings st) -> targeted parsed b = true ->
                   enabled b = e)
        <-> after (if e then OpEnable ks else OpDisable ks)
              (after (if e then OpDisable ks else OpEnable ks) st)
            = st).
Proof.
  intros V P.
  assert (Two : forall e1 e2 : bool,
             after (if e2 then OpEnable ks else OpDisable ks)
               (after (if e1 then OpEnable ks else OpDisable ks) st)
             = after (if e2 then OpEnable ks else OpDisable ks) st).
  { intros e1 e2.
    rewrite (after_toggle ks parsed e1 st V P),
      (after_toggle ks parsed e2 st V P),
      (after_toggle ks parsed e2 (set_bindings st _) V P).
    rewrite set_bindings_twice, bindings_set_bindings. f_equal.
    rewrite map_map. apply map_ext. intros b. apply toggled_twice. }
  split; [exact Two|]. intros e.
  assert (Sw : (if e then OpDisable ks else OpEnable ks)
               = (if negb e then OpEnable ks else OpDisable ks))
    by now destruct e.
  rewrite Sw, Two, (after_toggle ks parsed e st V P). split.
  - intros En.
    assert (M : map (toggled e parsed) (bindings st) = bindings st).
    { rewrite <- (map_id (bindings st)) at 2. apply map_ext_in.
      intros b I. apply toggled_same. now apply En. }
    rewrite M. apply set_bindings_same.
  - intros Back b I T.
    assert (M : map (toggled e parsed) (bindings st) = bindings st).
    { rewrite <- Back at 2. now rewrite bindings_set_bindings. }
    pose proof (map_fixed _ _ M b I) as Fix.
    unfold toggled in Fix. rewrite T in Fix.
    rewrite <- Fix. reflexivity.
Qed.

Lemma toggle_last_wins_witness :
  let st := run_ops [OpBind "s" 1 "press s" true; OpBind "x" 2 "" false]
              new_registry in
  invalid_keys "s" = false
  /\ parseKeys "s" = Ok [[Str "s"]]
  /\ after (OpEnable "s") (after (OpDisable "s") st) = st.
Proof.
  cbv zeta. set (st := run_ops _ _).
  split; [reflexivity|]. split; [reflexivity|].
  destruct (toggle_last_wins "s" [[Str "s"]] st eq_refl eq_refl)
    as [_ Back].
  apply (proj1 (Back true)).
  intros b [<-|[<-|[]]]; [reflexivity|discriminate].
Defined.

(* ================================================================= *)
(** ** Further properties: [rebind] keeps the registrations *)

Lemma rebind_one_same_joins cb d e a k j :
  In j (joins (fst (rebind_one cb d e a k))) <-> In j (joins (fst a)).
Proof.
  destruct a as [bs out]. cbn [fst].
  destruct (in_dec string_dec (keysJoin k) (joins bs)) as [I|I].
  - rewrite (rebind_one_hit cb d e bs out k I). cbn [fst].
    rewrite joins_app, in_app_iff, joins_without. cbn [joins map In keys].
    destruct (string_dec j (keysJoin k)) as [->|N]; [tauto|].
    intuition congruence.
  - now rewrite (rebind_one_miss cb d e bs out k I).
Qed.

Lemma rebind_fold_same_joins cb d e j : forall parsed a,
  In j (joins (fst (fold_left (rebind_one cb d e) parsed a)))
  <-> In j (joins (fst a)).
Proof.
  induction parsed as [|k parsed IH]; intros a; cbn [fold_left]; [tauto|].
  rewrite IH. apply rebind_one_same_joins.
Qed.

Lemma rebind_inv ks cb d e st st' out :
  rebind ks cb d e st = Ok (st', out) ->
  exists parsed, invalid_keys ks = false /\ parseKeys ks = Ok parsed.
Proof.
  unfold rebind. destruct (invalid_keys ks); [discriminate|].
  destruct (parseKeys ks) as [parsed|err]; [|discriminate]. eauto.
Qed.

(** [rebind] never registers and never unregisters a join: after a
    [rebind] that returns, the registered join strings are the same set;
    with one binding per join (as in every state the public operations
    reach) they are the same up to order and the number of bindings is
    unchanged; every binding is one that was there or carries the new
    callback, description and flag; the debug flag and the listeners are
    untouched. *)
Theorem rebind_keeps_registrations ks cb d e st st' out :
  rebind ks cb d e st = Ok (st', out) ->
  (forall j, In j (joins (bindings st')) <-> In j (joins (bindings st)))
  /\ (NoDup (joins (bindings st)) ->
      Permutation (joins (bindings st')) (joins (bindings st))
      /\ List.length (bindings st') = List.length (bindings st))
  /\ (forall b, In b (bindings st') ->
        In b (bindings st)
        \/ (callback b = cb /\ description b = d /\ enabled b = e))
  /\ debug_flag st' = debug_flag st
  /\ keydown_listener st' = keydown_listener st
  /\ click_listener st' = click_listener st.
Proof.
  intros R. destruct (rebind_inv _ _ _ _ _ _ _ R) as (parsed & V & P).
  rewrite (rebind_returns ks cb d e st parsed V P) in R.
  inversion R; subst st' out. cbn [set_bindings bindings debug_flag
                                   keydown_listener click_listener].
  assert (Same : forall j,
             In j (joins (fst (fold_left (rebind_one cb d e) parsed
                                 (bindings st, []))))
             <-> In j (joins (bindings st)))
    by (intros j; apply rebind_fold_same_joins).
  split; [exact Same|]. split; [|split; [|now repeat split]].
  - intros D.
    assert (P' : Permutation
                   (joins (fst (fold_left (rebind_one cb d e) parsed
                                  (bindings st, []))))
                   (joins (bindings st))).
    { apply NoDup_Permutation; [|assumption|exact Same].
      now apply (fold_unique (rebind_one cb d e)
                   (rebind_one_unique cb d e) parsed (bindings st, [])). }
    split; [exact P'|]. apply Permutation_length in P'.
    unfold joins in P'. now rewrite !length_map in P'.
  - destruct (rebind_loop cb d e parsed (bindings st) [])
      as (tail & warns & F & T & _).
    rewrite F. cbn [fst]. intros b I. apply in_app_or in I.
    destruct I as [I|I].
    + left. now apply filter_In in I.
    + right. destruct (T b I) as (seq & _ & -> & _). now repeat split.
Qed.

Lemma rebind_keeps_registrations_witness :
  let st := run_ops [OpBind "s" 1 "" true; OpBind "x" 2 "" true] new_registry in
  rebind "s|y" 9 "new" false st
  = Ok (set_bindings st [mkBinding [Str "x"] 2 "" true;
                         mkBinding [Str "s"] 9 "new" false],
        [Warn "Shortcut 'y' is not registered"])
  /\ forall j, In j ["x"; "s"] <-> In j ["s"; "x"].
Proof.
  cbv zeta. set (st := run_ops _ _).
  split; [reflexivity|].
  exact (proj1 (rebind_keeps_registrations "s|y" 9 "new" false st _ _
                  eq_refl)).
Defined.

(* ================================================================= *)
(** ** Further properties: [docs] *)

Lemma docs_from_keys_and_descriptions r st :
  docs r st
  = map (fun kd => (if r then Readable (join_keys " + " (fst kd))
                    else Raw (fst kd), snd kd))
      (combine (map keys (bindings st)) (map description (bindings st))).
Proof.
  unfold docs. induction (bindings st) as [|b bs IH]; simpl;
    [reflexivity|]. now rewrite IH.
Qed.

Lemma docs_after_toggle r ks (e : bool) st :
  docs r (after (if e then OpEnable ks else OpDisable ks) st) = docs r st.
Proof.
  destruct (invalid_keys ks) eqn:V.
  - unfold after. destruct e; cbn [apply_op]; unfold enable, disable;
      now rewrite V.
  - destruct (parseKeys ks) as [parsed|err] eqn:P.
    + rewrite (after_toggle ks parsed e st V P). unfold docs.
      cbn [set_bindings bindings]. rewrite map_map. apply map_ext.
      intros b. unfold toggled. now destruct (targeted parsed b).
    + unfold after. destruct e; cbn [apply_op];
        unfold enable, disable, toggle; now rewrite V, P.
Qed.

(** [docs] gives one entry per binding, in registration order, with the
    description of the binding and its keys, joined with " + " in the
    readable form and as they are otherwise. What it returns depends on
    the keys and the descriptions only, not on the callbacks nor on the
    [enabled] flags: [enable], [disable] and [debug] do not change it. *)
Theorem docs_lists_keys_and_descriptions r st :
  List.length (docs r st) = List.length (bindings st)
  /\ map snd (docs r st) = map description (bindings st)
  /\ map fst (docs true st)
     = map (fun b => Readable (JS.join " + " (map ToString (keys b))))
         (bindings st)
  /\ map fst (docs false st) = map (fun b => Raw (keys b)) (bindings st)
  /\ (forall st2,
        map keys (bindings st2) = map keys (bindings st) ->
        map description (bindings st2) = map description (bindings st) ->
        docs r st2 = docs r st)
  /\ (forall ks, docs r (after (OpEnable ks) st) = docs r st
                 /\ docs r (after (OpDisable ks) st) = docs r st)
  /\ (forall e, docs r (debug e st) = docs r st).
Proof.
  split; [apply length_map|]. split; [unfold docs; now rewrite map_map|].
  split; [unfold docs; now rewrite map_map|].
  split; [unfold docs; now rewrite map_map|].
  split; [|split; [|reflexivity]].
  - intros st2 K D. rewrite !docs_from_keys_and_descriptions.
    now rewrite K, D.
  - intros ks. split.
    + apply (docs_after_toggle r ks true).
    + apply (docs_after_toggle r ks false).
Qed.

Lemma docs_lists_keys_and_descriptions_witness :
  let st := run_ops [OpBind "ctrl+v" 1 "To copy a file" true] new_registry in
  let st2 := run_ops [OpBind "ctrl+v" 7 "To copy a file" false] new_registry in
  map keys (bindings st2) = map keys (bindings st)
  /\ map description (bindings st2) = map description (bindings st)
  /\ docs true st2 = docs true st
  /\ docs true st = [(Readable "ctrl + v", "To copy a file")].
Proof.
  cbv zeta. split; [reflexivity|]. split; [reflexivity|].
  split; [|reflexivity].
  destruct (docs_lists_keys_and_descriptions true
              (run_ops [OpBind "ctrl+v" 1 "To copy a file" true] new_registry))
    as (_ & _ & _ & _ & Dep & _).
  apply Dep; reflexivity.
Defined.

(* ================================================================= *)
(** ** Further properties: the default sort and the canonical form *)

Section Sorting.

Import OrderedTypeEx.

Lemma ltb_lt a b : String.ltb a b = true <-> String_as_OT.lt a b.
Proof.
  unfold String.ltb. rewrite <- String_as_OT.cmp_lt.
  unfold String_as_OT.cmp. destruct (String.compare a b); split;
    congruence.
Qed.

Lemma code_unit_le_refl a : code_unit_le a a.
Proof.
  unfold code_unit_le. destruct (String.ltb a a) eqn:L; [|reflexivity].
  apply ltb_lt in L. apply String_as_OT.lt_not_eq in L.
  exfalso. apply L. reflexivity.
Qed.

Lemma not_le_lt a b : String.ltb a b = false -> a <> b -> String.ltb b a = true.
Proof.
  unfold String.ltb. rewrite (String.compare_antisym b a).
  destruct (String.compare a b) eqn:C; cbn; try congruence.
  intros _ N. apply String.compare_eq_iff in C. congruence.
Qed.

Lemma code_unit_le_trans a b c :
  code_unit_le a b -> code_unit_le b c -> code_unit_le a c.
Proof.
  unfold code_unit_le. intros AB BC.
  destruct (String.ltb c a) eqn:CA; [|reflexivity]. exfalso.
  destruct (string_dec a b) as [->|N]; [congruence|].
  pose proof (not_le_lt b a AB (not_eq_sym N)) as L.
  apply ltb_lt in CA, L.
  pose proof (String_as_OT.lt_trans _ _ _ CA L) as CB.
  apply ltb_lt in CB. congruence.
Qed.

Lemma code_unit_le_antisym a b : code_unit_le a b -> code_unit_le b a -> a = b.
Proof.
  unfold code_unit_le. intros AB BA.
  destruct (string_dec a b) as [E|N]; [assumption|].
  pose proof (not_le_lt b a AB (not_eq_sym N)). congruence.
Qed.

Lemma insert_sorted_perm {A} (key : A -> string) x l :
  Permutation (JS.insert_sorted key x l) (x :: l).
Proof.
  induction l as [|y l IH]; simpl; [reflexivity|].
  destruct (String.ltb (key x) (key y)); [reflexivity|].
  rewrite IH. apply perm_swap.
Qed.

Lemma sort_from_perm {A} (key : A -> string) : forall l done,
  Permutation (fold_left (fun a x => JS.insert_sorted key x a) l done)
    (l ++ done).
Proof.
  induction l as [|x l IH]; intros done; simpl; [reflexivity|].
  rewrite IH, insert_sorted_perm. symmetry. apply Permutation_middle.
Qed.

Lemma sort_perm {A} (key : A -> string) l : Permutation (JS.sort key l) l.
Proof. unfold JS.sort. rewrite sort_from_perm. now rewrite app_nil_r. Qed.

Lemma insert_sorted_sorted x l :
  StronglySorted code_unit_le l ->
  StronglySorted code_unit_le (JS.insert_sorted (fun s => s) x l).
Proof.
  induction 1 as [|y l S IH F]; simpl; [repeat constructor|].
  destruct (String.ltb x y) eqn:L.
  - constructor; [now constructor|].
    assert (XY : code_unit_le x y).
    { unfold code_unit_le. destruct (String.ltb y x) eqn:L'; [|reflexivity].
      apply ltb_lt in L, L'.
      pose proof (String_as_OT.lt_trans _ _ _ L L') as XX.
      apply String_as_OT.lt_not_eq in XX. exfalso. apply XX. reflexivity. }
    constructor; [assumption|].
    rewrite Forall_forall in *. intros z Hz.
    apply (code_unit_le_trans x y z XY). now apply F.
  - constructor; [assumption|].
    rewrite Forall_forall in *. intros z Hz.
    apply (Permutation_in _ (insert_sorted_perm _ x l)) in Hz.
    destruct Hz as [<-|Hz]; [exact L | now apply F].
Qed.

Lemma sort_from_sorted : forall l done,
  StronglySorted code_unit_le done ->
  StronglySorted code_unit_le
    (fold_left (fun a x => JS.insert_sorted (fun s => s) x a) l done).
Proof.
  induction l as [|x l IH]; intros done S; simpl; [assumption|].
  apply IH. now apply insert_sorted_sorted.
Qed.

Lemma sort_sorted l : StronglySorted code_unit_le (JS.sort (fun s => s) l).
Proof. apply sort_from_sorted. constructor. Qed.

Lemma sorted_perm_unique : forall l1 l2,
  StronglySorted code_unit_le l1 ->
  StronglySorted code_unit_le l2 ->
  Permutation l1 l2 -> l1 = l2.
Proof.
  induction l1 as [|x l1 IH]; intros l2 S1 S2 P.
  - apply Permutation_nil in P. now subst.
  - destruct l2 as [|y l2]; [now apply Permutation_sym, Permutation_nil in P|].
    inversion S1 as [|? ? S1' F1]; subst.
    inversion S2 as [|? ? S2' F2]; subst.
    rewrite Forall_forall in F1, F2.
    assert (E : x = y).
    { apply code_unit_le_antisym.
      - assert (I : In y (x :: l1))
          by (apply (Permutation_in _ (Permutation_sym P)); now left).
        destruct I as [->|I]; [apply code_unit_le_refl | now apply F1].
      - assert (I : In x (y :: l2))
          by (apply (Permutation_in _ P); now left).
        destruct I as [->|I]; [apply code_unit_le_refl | now apply F2]. }
    subst y. f_equal. apply IH; try assumption.
    now apply Permutation_cons_inv in P.
Qed.

Lemma insert_sorted_map {A} (key : A -> string) x l :
  map key (JS.insert_sorted key x l)
  = JS.insert_sorted (fun s => s) (key x) (map key l).
Proof.
  induction l as [|y l IH]; simpl; [reflexivity|].
  destruct (String.ltb (key x) (key y)); simpl; [reflexivity|].
  now rewrite IH.
Qed.

Lemma sort_from_map {A} (key : A -> string) : forall l done,
  map key (fold_left (fun a x => JS.insert_sorted key x a) l done)
  = fold_left (fun a x => JS.insert_sorted (fun s => s) x a)
      (map key l) (map key done).
Proof.
  induction l as [|x l IH]; intros done; simpl; [reflexivity|].
  now rewrite IH, insert_sorted_map.
Qed.

Lemma sort_map {A} (key : A -> string) l :
  map key (JS.sort key l) = JS.sort (fun s => s) (map key l).
Proof. apply (sort_from_map key l []). Qed.

Lemma sort_perm_invariant l1 l2 :
  Permutation l1 l2 ->
  JS.sort (fun s => s) l1 = JS.sort (fun s => s) l2.
Proof.
  intros P. apply sorted_perm_unique; try apply sort_sorted.
  now rewrite !sort_perm.
Qed.

End Sorting.

(** Matching does not depend on the order of the keys: the default sort
    puts the tokens in code-unit order, so a binding whose keys, as
    strings, are the pressed tokens in any order has the canonical form of
    the pressed tokens, and fires when it is enabled; two bindings whose
    keys are rearrangements of one another have the same canonical
    form. *)
Theorem matching_ignores_order b pressed :
  Permutation (map ToString (keys b)) pressed ->
  sortedBinding b = sortedPressed pressed
  /\ (enabled b = true -> fires pressed b = true)
  /\ (forall b', Permutation (map ToString (keys b')) (map ToString (keys b)) ->
        sortedBinding b' = sortedBinding b).
Proof.
  intros P.
  assert (C : forall c, sortedBinding c
                        = JS.join "+" (JS.sort (fun s => s)
                                         (map ToString (keys c)))).
  { intros c. unfold sortedBinding, join_keys. now rewrite sort_map. }
  assert (E : sortedBinding b = sortedPressed pressed).
  { rewrite C. unfold sortedPressed. f_equal. now apply sort_perm_invariant. }
  split; [exact E|]. split.
  - intros En. unfold fires. rewrite E, En, String.eqb_refl. reflexivity.
  - intros b' P'. rewrite !C. f_equal. now apply sort_perm_invariant.
Qed.

Lemma matching_ignores_order_witness :
  let b := mkBinding [Str "s"; Str "shift"; Str "ctrl"] 1 "" true in
  Permutation (map ToString (keys b)) ["ctrl"; "shift"; "s"]
  /\ sortedBinding b = "ctrl+s+shift"
  /\ fires ["ctrl"; "shift"; "s"] b = true.
Proof.
  cbv zeta.
  assert (P : Permutation ["s"; "shift"; "ctrl"] ["ctrl"; "shift"; "s"]).
  { apply perm_trans with ["s"; "ctrl"; "shift"].
    - apply perm_skip, perm_swap.
    - apply perm_trans with ["ctrl"; "s"; "shift"];
        [apply perm_swap | apply perm_skip, perm_swap]. }
  split; [exact P|].
  destruct (matching_ignores_order
              (mkBinding [Str "s"; Str "shift"; Str "ctrl"] 1 "" true)
              ["ctrl"; "shift"; "s"] P) as (E & F & _).
  split; [exact E | exact (F eq_refl)].
Defined.

(* ================================================================= *)
(** ** Further properties: the handler *)

Section HandlerMore.

Variable run : fn -> event -> registry -> registry * bool.

Lemma logged_debug_log st pressed :
  logged (debug_log st pressed)
  = if debug_flag st then [JS.join " + " pressed] else [].
Proof. unfold debug_log. now destruct (debug_flag st). Qed.

Lemma prevented_debug_log st pressed : prevented (debug_log st pressed) = [].
Proof. unfold debug_log. now destruct (debug_flag st). Qed.

(** The debug output of the handler on a keyboard or mouse event: at most
    one line, the pressed tokens in push order joined with " + ". When
    the callbacks return and leave the debug flag alone, the line is
    written exactly when the flag is set, whether or not a binding
    matched; when the callback invoked throws, nothing is written. *)
Theorem debug_logs_pressed ev st pressed :
  pressed_of ev = Some pressed ->
  (logged (snd (handleKeydown run ev st)) = []
   \/ logged (snd (handleKeydown run ev st)) = [JS.join " + " pressed])
  /\ ((forall f, snd (run f ev st) = true
                 /\ debug_flag (fst (run f ev st)) = debug_flag st) ->
      logged (snd (handleKeydown run ev st))
      = if debug_flag st then [JS.join " + " pressed] else [])
  /\ (forall b, find (fires pressed) (bindings st) = Some b ->
        snd (run (callback b) ev st) = false ->
        logged (snd (handleKeydown run ev st)) = []).
Proof.
  intros P.
  destruct (find (fires pressed) (bindings st)) as [b|] eqn:F.
  - destruct (handleKeydown_found run ev st pressed b P F) as [-> _].
    cbn [snd logged flat_map app].
    destruct (run (callback b) ev st) as [st' returned] eqn:R.
    cbn [fst snd]. split; [|split].
    + destruct returned; [|now left]. rewrite logged_debug_log.
      destruct (debug_flag st'); [now right | now left].
    + intros Q. specialize (Q (callback b)). rewrite R in Q.
      cbn [fst snd] in Q. destruct Q as [-> <-]. apply logged_debug_log.
    + intros b' E Th. inversion E; subst b'. rewrite R in Th.
      cbn [snd] in Th. now subst returned.
  - rewrite (handleKeydown_not_found run ev st pressed P F). cbn [snd].
    rewrite logged_debug_log. split; [|split].
    + destruct (debug_flag st); [now right | now left].
    + reflexivity.
    + discriminate.
Qed.

(** The handler invokes nothing but the callback of a registered binding
    that is enabled and has the canonical form of the pressed tokens; it
    calls [preventDefault], on the event it was given, exactly when it
    invokes a callback; and it never changes the registry itself: when no
    callback is invoked the state is the one it started from, otherwise
    the one that callback left. *)
Theorem handler_invokes_only_firing ev st :
  (forall f, In f (invoked (snd (handleKeydown run ev st))) ->
     exists pressed b,
       pressed_of ev = Some pressed
       /\ In b (bindings st)
       /\ callback b = f
       /\ enabled b = true
       /\ sortedBinding b = sortedPressed pressed)
  /\ prevented (snd (handleKeydown run ev st))
     = map (fun _ => ev) (invoked (snd (handleKeydown run ev st)))
  /\ (invoked (snd (handleKeydown run ev st)) = [] ->
      fst (handleKeydown run ev st) = st)
  /\ (forall f, In f (invoked (snd (handleKeydown run ev st))) ->
      fst (handleKeydown run ev st) = fst (run f ev st)).
Proof.
  destruct (pressed_of ev) as [pressed|] eqn:P.
  - destruct (find (fires pressed) (bindings st)) as [b|] eqn:F.
    + destruct (handleKeydown_found run ev st pressed b P F) as [H I].
      rewrite I. rewrite H. cbn [fst snd prevented flat_map app map].
      apply find_some in F. destruct F as [In_b Fb].
      apply fires_iff in Fb. destruct Fb as [M En].
      split; [|split; [|split]].
      * intros f [<-|[]]. now exists pressed, b.
      * f_equal. destruct (snd (run (callback b) ev st));
          [apply prevented_debug_log | reflexivity].
      * discriminate.
      * now intros f [<-|[]].
    + rewrite (handleKeydown_not_found run ev st pressed P F).
      cbn [fst snd]. rewrite invoked_debug_log, prevented_debug_log.
      split; [intros f []|]. now repeat split.
  - unfold handleKeydown. rewrite P. cbn.
    split; [intros f []|]. now repeat split.
Qed.

Lemma find_app_none {A} (f : A -> bool) l1 l2 :
  (forall x, In x l1 -> f x = false) -> find f (l1 ++ l2) = find f l2.
Proof.
  induction l1 as [|x l1 IH]; intros N; simpl; [reflexivity|].
  rewrite (N x (or_introl eq_refl)). apply IH. intros y I. apply N. now right.
Qed.

Lemma find_exists {A} (f : A -> bool) l x :
  In x l -> f x = true -> exists y, find f l = Some y /\ In y l /\ f y = true.
Proof.
  intros I T. destruct (find f l) as [y|] eqn:F.
  - exists y. apply find_some in F. now repeat split.
  - pose proof (find_none f l F x I). congruence.
Qed.

(** A shortcut that was just bound fires: after [bind] with
    [enabled = true], for a key-sequence of the spec whose join was not
    registered when its turn came, an event whose pressed tokens have the
    canonical form of the key-sequence, and on which no earlier binding
    fired, invokes the callback given to [bind] and nothing else. *)
Theorem bound_shortcut_fires ks parsed cb d st i seq ev pressed :
  invalid_keys ks = false ->
  parseKeys ks = Ok parsed ->
  nth_error parsed i = Some seq ->
  ~ In (keysJoin seq)
      (joins (bindings st) ++ map keysJoin (firstn i parsed)) ->
  pressed_of ev = Some pressed ->
  join_keys "+" (JS.sort ToString seq) = sortedPressed pressed ->
  (forall b, In b (bindings st) -> fires pressed b = false) ->
  exists st1 out,
    bind ks cb d true st = Ok (st1, out)
    /\ In (mkBinding seq cb d true) (bindings st1)
    /\ invoked (snd (handleKeydown run ev st1)) = [cb].
Proof.
  intros V P N Fresh Pr Canon Quiet.
  destruct (bind_loop cb d true parsed (bindings st) [])
    as (added & warns & F & _ & A & _ & I).
  exists (set_bindings st (bindings st ++ added)), warns.
  rewrite (bind_returns ks cb d true st parsed V P), F. cbn [fst snd app].
  split; [reflexivity|]. rewrite bindings_set_bindings.
  pose proof (proj2 (I i seq N) Fresh) as New.
  split; [apply in_or_app; now right|].
  assert (Fi : fires pressed (mkBinding seq cb d true) = true).
  { apply fires_iff. split; [exact Canon | reflexivity]. }
  destruct (find_exists (fires pressed) added _ New Fi) as (y & Fy & Iy & _).
  destruct (A y Iy) as (seq' & _ & -> & _).
  assert (Fd : find (fires pressed)
                 (bindings (set_bindings st (bindings st ++ added)))
               = Some (mkBinding seq' cb d true)).
  { rewrite bindings_set_bindings, (find_app_none _ _ _ Quiet). exact Fy. }
  now destruct (handleKeydown_found run ev _ pressed _ Pr Fd).
Qed.

End HandlerMore.

Lemma debug_logs_pressed_witness :
  let ev := MouseEvent ctrl_only in
  let st := run_ops [OpBind "ctrl+click" 1 "" true; OpDebug true]
              new_registry in
  pressed_of ev = Some ["ctrl"; "click"]
  /\ logged (snd (handleKeydown inert ev st)) = ["ctrl + click"]
  /\ logged (snd (handleKeydown inert ev (after (OpUnbind "ctrl+click") st)))
     = ["ctrl + click"].
Proof.
  cbv zeta. set (st := run_ops _ _). split; [reflexivity|]. split.
  - destruct (debug_logs_pressed inert (MouseEvent ctrl_only) st
                ["ctrl"; "click"] eq_refl) as (_ & L & _).
    apply L. intros f. now split.
  - destruct (debug_logs_pressed inert (MouseEvent ctrl_only)
                (after (OpUnbind "ctrl+click") st)
                ["ctrl"; "click"] eq_refl) as (_ & L & _).
    apply L. intros f. now split.
Defined.

Lemma handler_invokes_only_firing_witness :
  let st := run_ops [OpBind "s" 1 "" false; OpBind "x" 2 "" true]
              new_registry in
  let ev := KeyboardEvent no_mods "s" in
  invoked (snd (handleKeydown inert ev st)) = []
  /\ fst (handleKeydown inert ev st) = st.
Proof.
  cbv zeta. set (st := run_ops _ _). split; [reflexivity|].
  destruct (handler_invokes_only_firing inert (KeyboardEvent no_mods "s") st)
    as (_ & _ & Same & _).
  apply Same. reflexivity.
Defined.

Lemma bound_shortcut_fires_witness :
  let st := run_ops [OpBind "s" 1 "" true] new_registry in
  let ev := KeyboardEvent (mkMods true false true false) "V" in
  invalid_keys "shift+ctrl+c|v" = false
  /\ parseKeys "shift+ctrl+c|v"
     = Ok [[Str "shift"; Str "ctrl"; Str "c"];
           [Str "shift"; Str "ctrl"; Str "v"]]
  /\ pressed_of ev = Some ["ctrl"; "shift"; "v"]
  /\ exists st1 out,
       bind "shift+ctrl+c|v" 5 "" true st = Ok (st1, out)
       /\ In (mkBinding [Str "shift"; Str "ctrl"; Str "v"] 5 "" true)
            (bindings st1)
       /\ invoked (snd (handleKeydown inert ev st1)) = [5].
Proof.
  cbv zeta. split; [reflexivity|]. split; [reflexivity|].
  split; [reflexivity|].
  apply (bound_shortcut_fires inert "shift+ctrl+c|v"
           [[Str "shift"; Str "ctrl"; Str "c"];
            [Str "shift"; Str "ctrl"; Str "v"]] 5 "" _ 1
           [Str "shift"; Str "ctrl"; Str "v"]
           (KeyboardEvent (mkMods true false true false) "V")
           ["ctrl"; "shift"; "v"]); try reflexivity.
  - intros [H|[H|[]]]; discriminate H.
  - intros b [<-|[]]. reflexivity.
Defined.

(* ================================================================= *)
(** ** Further properties: the listeners *)

Lemma after_keeps_listeners o st :
  o <> OpDestroy ->
  keydown_listener (after o st) = keydown_listener st
  /\ click_listener (after o st) = click_listener st.
Proof.
  intros N. unfold after.
  destruct o as [ks cb d e|ks|ks cb d e|ks|ks|e| |r];
    try contradiction; open_call ltac:(now split);
    try (now destruct (fold_left _ parsed _));
    now split.
Qed.

(** A registry listens, for both event types at once, until the first
    [destroy], and never again: after any sequence of public operations
    on a fresh registry the two listeners are both attached when the
    sequence has no [destroy], and both detached when it has one. *)
Theorem listeners_until_destroy ops :
  let st := run_ops ops new_registry in
  keydown_listener st = click_listener st
  /\ (keydown_listener st = true <-> ~ In OpDestroy ops).
Proof.
  cbv zeta.
  assert (G : forall ops st,
             keydown_listener st = click_listener st ->
             keydown_listener (run_ops ops st)
             = click_listener (run_ops ops st)
             /\ (keydown_listener (run_ops ops st) = true
                 <-> keydown_listener st = true /\ ~ In OpDestroy ops)).
  { clear ops. induction ops as [|o ops IH]; intros st E.
    - cbn. tauto.
    - cbn [run_ops fold_left]. fold (run_ops ops (after o st)).
      assert (D : {o = OpDestroy} + {o <> OpDestroy})
        by (destruct o; (now left) || (right; discriminate)).
      destruct D as [->|N].
      + destruct (IH (after OpDestroy st) eq_refl) as [E' L].
        split; [exact E'|]. rewrite L. cbn. intuition congruence.
      + destruct (after_keeps_listeners o st N) as [K C].
        destruct (IH (after o st)) as [E' L]; [congruence|].
        split; [exact E'|]. rewrite L, K. cbn [In].
        intuition congruence. }
  destruct (G ops new_registry eq_refl) as [E L].
  split; [exact E|]. rewrite L. cbn. tauto.
Qed.

Lemma listeners_until_destroy_witness :
  ~ In OpDestroy [OpBind "s" 1 "" true; OpDebug true]
  /\ keydown_listener (run_ops [OpBind "s" 1 "" true; OpDebug true]
                         new_registry) = true.
Proof.
  assert (N : ~ In OpDestroy [OpBind "s" 1 "" true; OpDebug true])
    by (intros [H|[H|[]]]; discriminate H).
  split; [exact N|].
  now apply (listeners_until_destroy [OpBind "s" 1 "" true; OpDebug true]).
Defined.

(* ================================================================= *)
(** ** Further properties: where the keys of a binding come from *)

Lemma parsed_sequences_not_nil ks parsed seq :
  parseKeys ks = Ok parsed -> In seq parsed -> seq <> [].
Proof.
  rewrite parseKeys_eq. cbv zeta.
  destruct (existsb is_group (keyParts ks)) eqn:G.
  - destruct (forallb is_string _); [|discriminate].
    destruct (expansions _ _) as [|x xs] eqn:E; [discriminate|].
    intros H I. inversion H; subst parsed. rewrite <- E in I.
    unfold expansions in I. apply in_map_iff in I.
    destruct I as (k & <- & _). now destruct (fixed_prefix _).
  - intros H. inversion H; subst parsed. intros [<-|[]].
    unfold fixed_prefix. rewrite (no_group_filter _ G).
    pose proof (keyParts_not_nil ks). now destruct (keyParts ks).
Qed.

Lemma after_invalid o ks st :
  invalid_keys ks = true ->
  o = OpEnable ks \/ o = OpDisable ks ->
  after o st = st.
Proof.
  intros V [->| ->]; unfold after; cbn [apply_op];
    unfold enable, disable; now rewrite V.
Qed.

Lemma after_unparsed o ks x st :
  parseKeys ks = Throw x ->
  o = OpEnable ks \/ o = OpDisable ks ->
  after o st = st.
Proof.
  intros P [->| ->]; unfold after; cbn [apply_op];
    unfold enable, disable, toggle; rewrite P;
    now destruct (invalid_keys ks).
Qed.

Lemma after_toggle_keys_origin ks (e : bool) st b :
  In b (bindings (after (if e then OpEnable ks else OpDisable ks) st)) ->
  exists b0, In b0 (bindings st) /\ keys b0 = keys b.
Proof.
  assert (O : (if e then OpEnable ks else OpDisable ks) = OpEnable ks
              \/ (if e then OpEnable ks else OpDisable ks) = OpDisable ks)
    by (destruct e; auto).
  destruct (invalid_keys ks) eqn:V;
    [rewrite (after_invalid _ ks st V O); eauto|].
  destruct (parseKeys ks) as [parsed|x] eqn:P;
    [|rewrite (after_unparsed _ ks x st P O); eauto].
  rewrite (after_toggle ks parsed e st V P), bindings_set_bindings.
  intros I. apply in_map_iff in I. destruct I as (b0 & <- & I).
  exists b0. split; [assumption|].
  unfold toggled. now destruct (targeted parsed b0).
Qed.

Lemma after_keys_origin o st b :
  In b (bindings (after o st)) ->
  (exists b0, In b0 (bindings st) /\ keys b0 = keys b)
  \/ (exists ks parsed, parseKeys ks = Ok parsed /\ In (keys b) parsed).
Proof.
  destruct o as [ks cb d e|ks|ks cb d e|ks|ks|e| |r].
  - unfold after; cbn [apply_op].
    destruct (bind ks cb d e st) as [[st' out]|x] eqn:B; [|eauto].
    destruct (bind_inv _ _ _ _ _ _ _ B) as (parsed & V & P).
    rewrite (bind_returns ks cb d e st parsed V P) in B.
    destruct (bind_loop cb d e parsed (bindings st) [])
      as (added & warns & F & _ & A & _).
    rewrite F in B. inversion B; subst st' out.
    rewrite bindings_set_bindings. cbn [fst]. intros I.
    apply in_app_or in I. destruct I as [I|I]; [eauto|].
    destruct (A b I) as (seq & S & -> & _). right. now exists ks, parsed.
  - unfold after; cbn [apply_op]. unfold unbind.
    destruct (invalid_keys ks) eqn:V; [eauto|].
    destruct (parseKeys ks) as [parsed|x] eqn:P; cbn [bind_result]; [|eauto].
    destruct (unbind_loop parsed (bindings st) []) as (warns & F & _).
    rewrite F, bindings_set_bindings. intros I.
    apply filter_In in I. destruct I as [I _]. eauto.
  - unfold after; cbn [apply_op].
    destruct (rebind ks cb d e st) as [[st' out]|x] eqn:B; [|eauto].
    destruct (rebind_inv _ _ _ _ _ _ _ B) as (parsed & V & P).
    rewrite (rebind_returns ks cb d e st parsed V P) in B.
    destruct (rebind_loop cb d e parsed (bindings st) [])
      as (tail & warns & F & T & _).
    rewrite F in B. inversion B; subst st' out.
    rewrite bindings_set_bindings. cbn [fst]. intros I.
    apply in_app_or in I. destruct I as [I|I].
    + apply filter_In in I. destruct I as [I _]. eauto.
    + destruct (T b I) as (seq & S & -> & _). right. now exists ks, parsed.
  - intros I. left. exact (after_toggle_keys_origin ks true st b I).
  - intros I. left. exact (after_toggle_keys_origin ks false st b I).
  - cbn. eauto.
  - cbn. intros [].
  - cbn. eauto.
Qed.

(** In every state the public operations reach from a fresh registry, the
    keys of each binding are a key-sequence the parser returned for some
    spec; in particular no binding has an empty list of keys. *)
Theorem bindings_hold_parsed_keys st :
  reachable st ->
  forall b, In b (bindings st) ->
    keys b <> []
    /\ exists ks parsed, parseKeys ks = Ok parsed /\ In (keys b) parsed.
Proof.
  intros [ops <-].
  assert (G : forall ops st0,
             (forall b, In b (bindings st0) ->
                exists ks parsed,
                  parseKeys ks = Ok parsed /\ In (keys b) parsed) ->
             forall b, In b (bindings (run_ops ops st0)) ->
               exists ks parsed,
                 parseKeys ks = Ok parsed /\ In (keys b) parsed).
  { clear ops. induction ops as [|o ops IH]; intros st0 H0; [exact H0|].
    cbn [run_ops fold_left]. apply IH. intros b I.
    destruct (after_keys_origin o st0 b I) as [(b0 & I0 & <-)|Q];
      [now apply H0 | exact Q]. }
  intros b I.
  destruct (G ops new_registry (fun b (F : In b []) => match F with end) b I)
    as (ks & parsed & P & S).
  split; [|now exists ks, parsed].
  exact (parsed_sequences_not_nil ks parsed (keys b) P S).
Qed.

Lemma bindings_hold_parsed_keys_witness :
  let st := run_ops [OpBind "ctrl+c|v" 1 "" true; OpUnbind "ctrl+c"]
              new_registry in
  reachable st
  /\ In (mkBinding [Str "ctrl"; Str "v"] 1 "" true) (bindings st)
  /\ keys (mkBinding [Str "ctrl"; Str "v"] 1 "" true) <> [].
Proof.
  cbv zeta. set (st := run_ops _ _).
  assert (R : reachable st) by (eexists; reflexivity).
  assert (I : In (mkBinding [Str "ctrl"; Str "v"] 1 "" true) (bindings st))
    by now left.
  split; [exact R|]. split; [exact I|].
  exact (proj1 (bindings_hold_parsed_keys st R _ I)).
Defined.
